(** * pb/diff: backward-compatibility diff of protobuf descriptors

    A shallow embedding of the Go package [diff] (the diff engine and its
    problem vocabulary) together with the properties of the engine.

    Conventions of the embedding.
    - Go's [int32] is [Z]; the only arithmetic the package performs on it
      (in [ProblemUnreservedFieldNumber.String]) is written with an explicit
      wrap-around.
    - A proto2 pointer field that the code dereferences unconditionally
      ([*file.Package], [*enum.Name], [*field.Number], ...) is a plain value:
      the engine's input contract is a fully populated descriptor tree.  A
      pointer field whose nil-ness the code inspects or prints ([TypeName],
      [Type], [Label], [ClientStreaming], [ServerStreaming]) is an [option].
    - [map[K]V] is stdpp's [gmap K V].
    - The shared [*Report] accumulator is threaded explicitly: every differ
      takes the report and returns the extended report. *)

From stdpp Require Import gmap strings list fin_maps pretty.

#[local] Set Warnings "-clear-no-such-hyp".

Local Open Scope string_scope.
Local Open Scope list_scope.
Local Open Scope Z_scope.

(** ** Descriptor trees (package [descriptor]) *)

Record EnumValueDescriptorProto := {
  ev_Name : string;
  ev_Number : Z
}.

Record EnumDescriptorProto := {
  en_Name : string;
  en_Value : list EnumValueDescriptorProto
}.

Record FieldDescriptorProto := {
  fd_Name : string;
  fd_Number : Z;
  fd_Label : option Z;
  fd_Type : option Z;
  fd_TypeName : option string
}.

(** [DescriptorProto_ReservedRange]: [Start] inclusive, [End] exclusive. *)
Record ReservedRange := {
  rr_Start : Z;
  rr_End : Z
}.

Record DescriptorProto := {
  msg_Name : string;
  msg_Field : list FieldDescriptorProto;
  msg_ReservedRange : list ReservedRange;
  msg_ReservedName : list string
}.

Record MethodDescriptorProto := {
  mt_Name : string;
  mt_InputType : string;
  mt_OutputType : string;
  mt_ClientStreaming : option bool;
  mt_ServerStreaming : option bool
}.

Record ServiceDescriptorProto := {
  svc_Name : string;
  svc_Method : list MethodDescriptorProto
}.

Record FileDescriptorProto := {
  file_Package : string;
  file_MessageType : list DescriptorProto;
  file_EnumType : list EnumDescriptorProto;
  file_Service : list ServiceDescriptorProto
}.

Global Instance EnumValueDescriptorProto_eq_dec : EqDecision EnumValueDescriptorProto.
Proof. solve_decision. Defined.
Global Instance EnumDescriptorProto_eq_dec : EqDecision EnumDescriptorProto.
Proof. solve_decision. Defined.
Global Instance FieldDescriptorProto_eq_dec : EqDecision FieldDescriptorProto.
Proof. solve_decision. Defined.
Global Instance ReservedRange_eq_dec : EqDecision ReservedRange.
Proof. solve_decision. Defined.
Global Instance DescriptorProto_eq_dec : EqDecision DescriptorProto.
Proof. solve_decision. Defined.
Global Instance MethodDescriptorProto_eq_dec : EqDecision MethodDescriptorProto.
Proof. solve_decision. Defined.
Global Instance ServiceDescriptorProto_eq_dec : EqDecision ServiceDescriptorProto.
Proof. solve_decision. Defined.
Global Instance FileDescriptorProto_eq_dec : EqDecision FileDescriptorProto.
Proof. solve_decision. Defined.

(** ** The problem vocabulary (problem.go) *)

(** One constructor per [Problem...] struct, with the struct's fields in
    declaration order.  [diffFields] never sets [Number] of
    [ProblemChangedFieldType]; it is Go's zero value there. *)
Inductive Change :=
  | ProblemChangedFieldType (Message : string) (Number : Z) (Field : string)
      (OldType NewType : option Z)
  | ProblemChangedFieldComplexType (Message Field OldType NewType : string)
  | ProblemChangedFieldName (Message : string) (Number : Z) (OldName NewName : string)
  | ProblemChangedFieldLabel (Message Field : string) (OldLabel NewLabel : option Z)
  | ProblemRemovedField (Message Field : string)
  | ProblemRemovedServiceMethod (Service Name : string)
  | ProblemChangedService (Service Name Side OldType NewType : string)
  | ProblemRemovedEnumValue (Enum Name : string)
  | ProblemChangeEnumValue (Enum Name : string) (OldValue NewValue : Z)
  | ProblemChangeEnumName (Enum : string) (Number : Z) (OldName NewName : string)
  | ProblemRemovedEnum (Enum : string)
  | ProblemRemovedMessage (Message : string)
  | ProblemRemovedPackage (Package : string)
  | ProblemRemovedService (Name : string)
  | ProblemChangedServiceStreaming (Service Name Side : string)
      (OldStream NewStream : option bool)
  | ProblemUnreservedFieldName (Message Name : string)
  | ProblemUnreservedFieldNumber (Message : string) (Start End : Z).

Global Instance Change_eq_dec : EqDecision Change.
Proof. solve_decision. Defined.

(** *** int32 arithmetic *)

Definition int32_wrap (z : Z) : Z := (z + 2 ^ 31) `mod` 2 ^ 32 - 2 ^ 31.

Definition int32_sub (a b : Z) : Z := int32_wrap (a - b).

Definition is_int32 (z : Z) : Prop := - 2 ^ 31 ≤ z < 2 ^ 31.

(** *** The pieces of [fmt] the package uses *)

(** [%d] *)
Definition fmt_d (z : Z) : string := pretty z.

(** [%t] *)
Definition fmt_t (b : bool) : string := if b then "true" else "false".

(** [proto.EnumName]: the symbolic name, or the number in decimal when the
    table has no entry. *)
Definition EnumName (names : Z → option string) (v : Z) : string :=
  match names v with
  | Some s => s
  | None => fmt_d v
  end.

(** [descriptor.FieldDescriptorProto_Type_name] *)
Definition FieldDescriptorProto_Type_name (v : Z) : option string :=
  match v with
  | 1 => Some "TYPE_DOUBLE" | 2 => Some "TYPE_FLOAT" | 3 => Some "TYPE_INT64"
  | 4 => Some "TYPE_UINT64" | 5 => Some "TYPE_INT32" | 6 => Some "TYPE_FIXED64"
  | 7 => Some "TYPE_FIXED32" | 8 => Some "TYPE_BOOL" | 9 => Some "TYPE_STRING"
  | 10 => Some "TYPE_GROUP" | 11 => Some "TYPE_MESSAGE" | 12 => Some "TYPE_BYTES"
  | 13 => Some "TYPE_UINT32" | 14 => Some "TYPE_ENUM" | 15 => Some "TYPE_SFIXED32"
  | 16 => Some "TYPE_SFIXED64" | 17 => Some "TYPE_SINT32" | 18 => Some "TYPE_SINT64"
  | _ => None
  end.

(** [descriptor.FieldDescriptorProto_Label_name] *)
Definition FieldDescriptorProto_Label_name (v : Z) : option string :=
  match v with
  | 1 => Some "LABEL_OPTIONAL" | 2 => Some "LABEL_REQUIRED" | 3 => Some "LABEL_REPEATED"
  | _ => None
  end.

(** [%s] applied to a pointer to an enum: the [String] method of the pointee,
    and [<nil>] for the nil pointer. *)
Definition fmt_s_enum (names : Z → option string) (p : option Z) : string :=
  match p with
  | Some v => EnumName names v
  | None => "<nil>"
  end.

(** [p != nil] *)
Definition not_nil {A} (p : option A) : bool :=
  match p with
  | Some _ => true
  | None => false
  end.

(** Modelled from the spec: the declaration of [ProblemChangedFieldComplexType]
    and its [String] method are not part of problem.go; the rendering is the
    one of "field type changed" with the two fully-qualified reference
    strings in place of the type kinds. *)
Definition ProblemChangedFieldComplexType_String (Message Field OldType NewType : string)
    : string :=
  "changed types for field '" +:+ Field +:+ "' on message '" +:+ Message +:+ "': "
    +:+ OldType +:+ " -> " +:+ NewType.

(** [ProblemUnreservedFieldNumber.String] *)
Definition ProblemUnreservedFieldNumber_String (Message : string) (Start End : Z) : string :=
  if int32_sub End Start >? 1 then
    "un-reserved field number(s) in range " +:+ fmt_d Start +:+ " to "
      +:+ fmt_d (int32_sub End 1) +:+ " from message '" +:+ Message +:+ "'"
  else
    "un-reserved field number " +:+ fmt_d Start +:+ " from message '" +:+ Message +:+ "'".

(** [ProblemChangedServiceStreaming.String] *)
Definition ProblemChangedServiceStreaming_String (Service Name Side : string)
    (OldStream NewStream : option bool) : string :=
  "changed " +:+ Side +:+ " streaming for method '" +:+ Name +:+ "' on service '"
    +:+ Service +:+ "': " +:+ fmt_t (not_nil OldStream) +:+ " -> "
    +:+ fmt_t (not_nil NewStream).

(** The [String] method of every [Change]. *)
Definition Change_String (ch : Change) : string :=
  match ch with
  | ProblemChangedFieldType Message _ Field OldType NewType =>
      "changed types for field '" +:+ Field +:+ "' on message '" +:+ Message +:+ "': "
        +:+ fmt_s_enum FieldDescriptorProto_Type_name OldType +:+ " -> "
        +:+ fmt_s_enum FieldDescriptorProto_Type_name NewType
  | ProblemChangedFieldComplexType Message Field OldType NewType =>
      ProblemChangedFieldComplexType_String Message Field OldType NewType
  | ProblemChangedFieldName Message Number OldName NewName =>
      "changed name for field #" +:+ fmt_d Number +:+ " on message '" +:+ Message
        +:+ "': " +:+ OldName +:+ " -> " +:+ NewName
  | ProblemChangedFieldLabel Message Field OldLabel NewLabel =>
      "changed label for field '" +:+ Field +:+ "' on message '" +:+ Message +:+ "': "
        +:+ fmt_s_enum FieldDescriptorProto_Label_name OldLabel +:+ " -> "
        +:+ fmt_s_enum FieldDescriptorProto_Label_name NewLabel
  | ProblemRemovedField Message Field =>
      "removed field '" +:+ Field +:+ "' from message '" +:+ Message +:+ "'"
  | ProblemRemovedServiceMethod Service Name =>
      "removed method '" +:+ Name +:+ "' from service '" +:+ Service +:+ "'"
  | ProblemChangedService Service Name Side OldType NewType =>
      "changed " +:+ Side +:+ " type for method '" +:+ Name +:+ "' on service '"
        +:+ Service +:+ "': " +:+ OldType +:+ " -> " +:+ NewType
  | ProblemRemovedEnumValue Enum Name =>
      "removed value '" +:+ Name +:+ "' from enum '" +:+ Enum +:+ "'"
  | ProblemChangeEnumValue Enum Name OldValue NewValue =>
      "changed value '" +:+ Name +:+ "' on enum '" +:+ Enum +:+ "': "
        +:+ fmt_d OldValue +:+ " -> " +:+ fmt_d NewValue
  | ProblemChangeEnumName Enum Number OldName NewName =>
      "changed name of field #" +:+ fmt_d Number +:+ " on enum '" +:+ Enum +:+ "': "
        +:+ OldName +:+ " -> " +:+ NewName
  | ProblemRemovedEnum Enum => "removed enum '" +:+ Enum +:+ "'"
  | ProblemRemovedMessage Message => "removed message '" +:+ Message +:+ "'"
  | ProblemRemovedPackage Package => "removed package '" +:+ Package +:+ "'"
  | ProblemRemovedService Name => "removed service '" +:+ Name +:+ "'"
  | ProblemChangedServiceStreaming Service Name Side OldStream NewStream =>
      ProblemChangedServiceStreaming_String Service Name Side OldStream NewStream
  | ProblemUnreservedFieldName Message Name =>
      "un-reserved field name '" +:+ Name +:+ "' from message '" +:+ Message +:+ "'"
  | ProblemUnreservedFieldNumber Message Start End =>
      ProblemUnreservedFieldNumber_String Message Start End
  end.

(** [%s] applied to a [[]Change]: the elements' [String] renderings,
    separated by single spaces, in square brackets. *)
Fixpoint fmt_s_elems (chs : list Change) : string :=
  match chs with
  | [] => ""
  | [ch] => Change_String ch
  | ch :: rest => Change_String ch +:+ " " +:+ fmt_s_elems rest
  end.

Definition fmt_s_Changes (chs : list Change) : string :=
  "[" +:+ fmt_s_elems chs +:+ "]".

(** ** The report *)

Record Report := { Changes : list Change }.

Definition Add (r : Report) (ch : Change) : Report :=
  {| Changes := Changes r ++ [ch] |}.

(** [cmp.Equal] on two pointers to comparable values (and on two strings):
    both nil, or both set to equal values. *)
Definition cmp_Equal {A} `{EqDecision A} (x y : A) : bool := bool_decide (x = y).

(** ** The diff engine *)

(** *** Reservations *)

(** First loop of [hasReserved]: scan the reserved names, stop at the first
    one equal to the field's name. *)
Fixpoint reserved_name_scan (names : list string) (field : FieldDescriptorProto) : bool :=
  match names with
  | [] => false
  | name :: rest =>
      if cmp_Equal name (fd_Name field) then true else reserved_name_scan rest field
  end.

(** Second loop of [hasReserved]: scan the reserved ranges, stop at the first
    one with [Start <= Number] and [Number <= End]. *)
Fixpoint reserved_number_scan (ranges : list ReservedRange) (field : FieldDescriptorProto)
    : bool :=
  match ranges with
  | [] => false
  | rrange :: rest =>
      if (fd_Number field >=? rr_Start rrange) && (fd_Number field <=? rr_End rrange)
      then true else reserved_number_scan rest field
  end.

Definition hasReserved (message : DescriptorProto) (field : FieldDescriptorProto) : bool :=
  let reserved_name := reserved_name_scan (msg_ReservedName message) field in
  let reserved_number := reserved_number_scan (msg_ReservedRange message) field in
  reserved_name && reserved_number.

(** *** Messages *)

(** [curr[*field.Number] = field] for every field, in order: a later field
    with the same number replaces an earlier one. *)
Definition fields_by_number (fields : list FieldDescriptorProto)
    : gmap Z FieldDescriptorProto :=
  foldl (λ curr field, <[fd_Number field := field]> curr) ∅ fields.

(** Body of the second loop of [diffFields]. *)
Definition diffFields_step (current : DescriptorProto)
    (curr : gmap Z FieldDescriptorProto) (report : Report)
    (field : FieldDescriptorProto) : Report :=
  match curr !! fd_Number field with
  | None =>
      if negb (hasReserved current field)
      then Add report (ProblemRemovedField (msg_Name current) (fd_Name field))
      else report
  | Some next =>
      let report :=
        if negb (cmp_Equal (fd_Name field) (fd_Name next))
        then Add report (ProblemChangedFieldName (msg_Name current) (fd_Number field)
                           (fd_Name field) (fd_Name next))
        else report in
      let report :=
        if negb (cmp_Equal (fd_Type field) (fd_Type next))
        then Add report (ProblemChangedFieldType (msg_Name current) 0 (fd_Name field)
                           (fd_Type field) (fd_Type next))
        else
          match fd_TypeName field, fd_TypeName next with
          | Some old_type, Some new_type =>
              if negb (cmp_Equal (fd_TypeName field) (fd_TypeName next))
              then Add report (ProblemChangedFieldComplexType (msg_Name current)
                                 (fd_Name field) old_type new_type)
              else report
          | _, _ => report
          end in
      if negb (cmp_Equal (fd_Label field) (fd_Label next))
      then Add report (ProblemChangedFieldLabel (msg_Name current) (fd_Name field)
                         (fd_Label field) (fd_Label next))
      else report
  end.

Definition diffFields (report : Report) (previous current : DescriptorProto) : Report :=
  let curr := fields_by_number (msg_Field current) in
  foldl (diffFields_step current curr) report (msg_Field previous).

(** Inner loop of [diffReservedNames]. *)
Fixpoint reserved_name_found (curr_names : list string) (prev_name : string) : bool :=
  match curr_names with
  | [] => false
  | curr_name :: rest =>
      if cmp_Equal prev_name curr_name then true else reserved_name_found rest prev_name
  end.

Definition diffReservedNames_step (current : DescriptorProto) (report : Report)
    (prev_name : string) : Report :=
  if negb (reserved_name_found (msg_ReservedName current) prev_name)
  then Add report (ProblemUnreservedFieldName (msg_Name current) prev_name)
  else report.

Definition diffReservedNames (report : Report) (previous current : DescriptorProto)
    : Report :=
  foldl (diffReservedNames_step current) report (msg_ReservedName previous).

(** Inner loop of [diffReservedNumbers]. *)
Fixpoint reserved_range_found (curr_ranges : list ReservedRange) (prev_range : ReservedRange)
    : bool :=
  match curr_ranges with
  | [] => false
  | curr_range :: rest =>
      if (rr_Start prev_range >=? rr_Start curr_range)
         && (rr_End prev_range <=? rr_End curr_range)
      then true else reserved_range_found rest prev_range
  end.

Definition diffReservedNumbers_step (current : DescriptorProto) (report : Report)
    (prev_range : ReservedRange) : Report :=
  if negb (reserved_range_found (msg_ReservedRange current) prev_range)
  then Add report (ProblemUnreservedFieldNumber (msg_Name current)
                     (rr_Start prev_range) (rr_End prev_range))
  else report.

Definition diffReservedNumbers (report : Report) (previous current : DescriptorProto)
    : Report :=
  foldl (diffReservedNumbers_step current) report (msg_ReservedRange previous).

Definition diffMsg (report : Report) (previous current : DescriptorProto) : Report :=
  let report := diffFields report previous current in
  let report := diffReservedNames report previous current in
  diffReservedNumbers report previous current.

(** *** Enums *)

Definition values_by_number (values : list EnumValueDescriptorProto)
    : gmap Z EnumValueDescriptorProto :=
  foldl (λ byvalue value, <[ev_Number value := value]> byvalue) ∅ values.

Definition values_by_name (values : list EnumValueDescriptorProto)
    : gmap string EnumValueDescriptorProto :=
  foldl (λ byname value, <[ev_Name value := value]> byname) ∅ values.

(** Body of the loop of [diffEnum] that looks the previous values up by
    number. *)
Definition diffEnum_number_step (previous : EnumDescriptorProto)
    (byvalue : gmap Z EnumValueDescriptorProto)
    (byname : gmap string EnumValueDescriptorProto)
    (report : Report) (value : EnumValueDescriptorProto) : Report :=
  match byvalue !! ev_Number value with
  | Some _ => report
  | None =>
      match byname !! ev_Name value with
      | Some next =>
          Add report (ProblemChangeEnumValue (en_Name previous) (ev_Name value)
                        (ev_Number value) (ev_Number next))
      | None =>
          Add report (ProblemRemovedEnumValue (en_Name previous) (ev_Name value))
      end
  end.

(** Body of the loop of [diffEnum] that looks the previous values up by
    name. *)
Definition diffEnum_name_step (previous : EnumDescriptorProto)
    (byvalue : gmap Z EnumValueDescriptorProto)
    (byname : gmap string EnumValueDescriptorProto)
    (report : Report) (name : EnumValueDescriptorProto) : Report :=
  match byname !! ev_Name name with
  | Some _ => report
  | None =>
      match byvalue !! ev_Number name with
      | Some next =>
          Add report (ProblemChangeEnumName (en_Name previous) (ev_Number name)
                        (ev_Name name) (ev_Name next))
      | None => report
      end
  end.

Definition diffEnum (report : Report) (previous current : EnumDescriptorProto) : Report :=
  let byvalue := values_by_number (en_Value current) in
  let byname := values_by_name (en_Value current) in
  let report :=
    foldl (diffEnum_number_step previous byvalue byname) report (en_Value previous) in
  foldl (diffEnum_name_step previous byvalue byname) report (en_Value previous).

(** *** Services *)

Definition methods_by_name (methods : list MethodDescriptorProto)
    : gmap string MethodDescriptorProto :=
  foldl (λ curr value, <[mt_Name value := value]> curr) ∅ methods.

(** Body of the second loop of [diffService]. *)
Definition diffService_step (previous current : ServiceDescriptorProto)
    (curr : gmap string MethodDescriptorProto) (report : Report)
    (prev : MethodDescriptorProto) : Report :=
  match curr !! mt_Name prev with
  | None => Add report (ProblemRemovedServiceMethod (svc_Name previous) (mt_Name prev))
  | Some next =>
      let report :=
        if negb (cmp_Equal (mt_InputType next) (mt_InputType prev))
        then Add report (ProblemChangedService (svc_Name current) (mt_Name prev) "input"
                           (mt_InputType prev) (mt_InputType next))
        else report in
      let report :=
        if negb (cmp_Equal (mt_OutputType next) (mt_OutputType prev))
        then Add report (ProblemChangedService (svc_Name current) (mt_Name prev) "output"
                           (mt_OutputType prev) (mt_OutputType next))
        else report in
      let report :=
        if negb (cmp_Equal (mt_ClientStreaming prev) (mt_ClientStreaming next))
        then Add report (ProblemChangedServiceStreaming (svc_Name current) (mt_Name prev)
                           "client" (mt_ClientStreaming prev) (mt_ClientStreaming next))
        else report in
      if negb (cmp_Equal (mt_ServerStreaming prev) (mt_ServerStreaming next))
      then Add report (ProblemChangedServiceStreaming (svc_Name current) (mt_Name prev)
                         "server" (mt_ServerStreaming prev) (mt_ServerStreaming next))
      else report
  end.

Definition diffService (report : Report) (previous current : ServiceDescriptorProto)
    : Report :=
  let curr := methods_by_name (svc_Method current) in
  foldl (diffService_step previous current curr) report (svc_Method previous).

(** *** Packages *)

Definition enums_by_name (current : list FileDescriptorProto)
    : gmap string EnumDescriptorProto :=
  foldl (λ curr file,
           foldl (λ curr enum, <[en_Name enum := enum]> curr) curr (file_EnumType file))
        ∅ current.

Definition services_by_name (current : list FileDescriptorProto)
    : gmap string ServiceDescriptorProto :=
  foldl (λ curr file,
           foldl (λ curr srv, <[svc_Name srv := srv]> curr) curr (file_Service file))
        ∅ current.

Definition messages_by_name (current : list FileDescriptorProto)
    : gmap string DescriptorProto :=
  foldl (λ curr file,
           foldl (λ curr msg, <[msg_Name msg := msg]> curr) curr (file_MessageType file))
        ∅ current.

Definition diffPackage_enum_step (curr : gmap string EnumDescriptorProto)
    (report : Report) (enum : EnumDescriptorProto) : Report :=
  match curr !! en_Name enum with
  | None => Add report (ProblemRemovedEnum (en_Name enum))
  | Some next => diffEnum report enum next
  end.

Definition diffPackage_service_step (curr : gmap string ServiceDescriptorProto)
    (report : Report) (srv : ServiceDescriptorProto) : Report :=
  match curr !! svc_Name srv with
  | None => Add report (ProblemRemovedService (svc_Name srv))
  | Some next => diffService report srv next
  end.

Definition diffPackage_message_step (curr : gmap string DescriptorProto)
    (report : Report) (msg : DescriptorProto) : Report :=
  match curr !! msg_Name msg with
  | None => Add report (ProblemRemovedMessage (msg_Name msg))
  | Some next => diffMsg report msg next
  end.

Definition diffPackage (report : Report) (previous current : list FileDescriptorProto)
    : Report :=
  let report :=
    let curr := enums_by_name current in
    foldl (λ report file, foldl (diffPackage_enum_step curr) report (file_EnumType file))
          report previous in
  let report :=
    let curr := services_by_name current in
    foldl (λ report file, foldl (diffPackage_service_step curr) report (file_Service file))
          report previous in
  let curr := messages_by_name current in
  foldl (λ report file, foldl (diffPackage_message_step curr) report (file_MessageType file))
        report previous.

(** *** Snapshots *)

Definition groupByPackage (files : list FileDescriptorProto)
    : gmap string (list FileDescriptorProto) :=
  foldl (λ (by_package : gmap string (list FileDescriptorProto)) file,
           match by_package !! file_Package file with
           | Some package_files =>
               <[file_Package file := (package_files ++ [file])%list]> by_package
           | None => <[file_Package file := [file]]> by_package
           end)
        ∅ files.

(** Body of the loop of [diffFiles]. *)
Definition diffFiles_step (curr_by_package : gmap string (list FileDescriptorProto))
    (report : Report) (entry : string * list FileDescriptorProto) : Report :=
  let '(package_name, files) := entry in
  match curr_by_package !! package_name with
  | None => Add report (ProblemRemovedPackage package_name)
  | Some next => diffPackage report files next
  end.

(** The error value of [diffFiles]: nil ([None]) for an empty report. *)
Definition diffFiles_err (report : Report) : option string :=
  if Z.of_nat (length (Changes report)) >? 0
  then Some ("found " +:+ fmt_d (Z.of_nat (length (Changes report))) +:+ " problems: "
               +:+ fmt_s_Changes (Changes report))
  else None.

(** [diffFiles] when [range prev_by_package] yields the entries in the
    order [order]. *)
Definition diffFiles_over (order : list (string * list FileDescriptorProto))
    (current : list FileDescriptorProto) : Report * option string :=
  let report := {| Changes := [] |} in
  let curr_by_package := groupByPackage current in
  let report := foldl (diffFiles_step curr_by_package) report order in
  (report, diffFiles_err report).

(** Go leaves the order in which [range] visits a map unspecified: every
    enumeration of the entries, each visited once, is a possible run. *)
Definition range_order {V} (m : gmap string V) (order : list (string * V)) : Prop :=
  order ≡ₚ map_to_list m.

Inductive diffFiles_returns (previous current : list FileDescriptorProto)
    : Report * option string → Prop :=
  | diffFiles_run order :
      range_order (groupByPackage previous) order →
      diffFiles_returns previous current (diffFiles_over order current).

(** One run of [diffFiles]: the entries in the order of [map_to_list]. *)
Definition diffFiles (previous current : list FileDescriptorProto)
    : Report * option string :=
  diffFiles_over (map_to_list (groupByPackage previous)) current.

(** [Diff] and [DiffSet] only unwrap their arguments. *)
Record CodeGeneratorRequest := { ProtoFile : list FileDescriptorProto }.
Record FileDescriptorSet := { File : list FileDescriptorProto }.

Definition Diff (previous current : CodeGeneratorRequest) : Report * option string :=
  diffFiles (ProtoFile previous) (ProtoFile current).

Definition DiffSet (previous current : FileDescriptorSet) : Report * option string :=
  diffFiles (File previous) (File current).

(** ** Vocabulary of the properties *)

Definition empty_report : Report := {| Changes := [] |}.

(** The Changes a piece of the engine adds when it starts from an empty
    report. *)
Definition emitted (run : Report → Report) : list Change := Changes (run empty_report).

(** A piece of the engine only ever appends to the shared report. *)
Definition appends (run : Report → Report) : Prop :=
  ∀ report, Changes (run report) = (Changes report ++ emitted run)%list.

(** The loop [for _, x := range l { m[key(x)] = x }] started on the empty
    map; all six indices of the engine are instances of it. *)
Definition index_by {K A} `{Countable K} (key : A → K) (l : list A) : gmap K A :=
  foldl (λ m x, <[key x := x]> m) ∅ l.

(** The files of a snapshot that declare a given package, in snapshot
    order. *)
Definition files_of (package_name : string) (files : list FileDescriptorProto)
    : list FileDescriptorProto :=
  filter (λ file, file_Package file = package_name) files.

(** The half-open reading of a reserved range: [Start ≤ n < End]. *)
Definition in_reserved_range (n : Z) (rrange : ReservedRange) : Prop :=
  rr_Start rrange ≤ n ∧ n < rr_End rrange.

(** [prev_range] lies within the single range [curr_range]. *)
Definition range_within (prev_range curr_range : ReservedRange) : Prop :=
  rr_Start curr_range ≤ rr_Start prev_range ∧ rr_End prev_range ≤ rr_End curr_range.

Global Instance range_within_dec prev_range curr_range :
  Decision (range_within prev_range curr_range).
Proof. unfold range_within. apply _. Defined.

(** Some single current range contains [prev_range]. *)
Definition range_covered (current : DescriptorProto) (prev_range : ReservedRange) : Prop :=
  Exists (range_within prev_range) (msg_ReservedRange current).

Global Instance range_covered_dec current prev_range :
  Decision (range_covered current prev_range).
Proof. unfold range_covered. apply _. Defined.

(** The Change [diffReservedNumbers] reports for a previous range. *)
Definition unreserved_range (current : DescriptorProto) (prev_range : ReservedRange)
    : Change :=
  ProblemUnreservedFieldNumber (msg_Name current) (rr_Start prev_range) (rr_End prev_range).

(** ** Well-formed snapshots and additive extension *)

(** The (package, name) pairs of the top-level declarations of one kind. *)
Definition package_keys {A} (decls : FileDescriptorProto → list A) (name : A → string)
    (files : list FileDescriptorProto) : list (string * string) :=
  files ≫= (λ file, (λ decl, (file_Package file, name decl)) <$> decls file).

(** No two enums, no two services and no two messages of one package share
    a name, across all the files of the package. *)
Definition toplevel_unique (files : list FileDescriptorProto) : Prop :=
  NoDup (package_keys file_EnumType en_Name files)
  ∧ NoDup (package_keys file_Service svc_Name files)
  ∧ NoDup (package_keys file_MessageType msg_Name files).

(** Field numbers are unique within each message and method names within
    each service. *)
Definition members_unique (files : list FileDescriptorProto) : Prop :=
  Forall (λ file,
            Forall (λ msg, NoDup (fd_Number <$> msg_Field msg)) (file_MessageType file)
            ∧ Forall (λ srv, NoDup (mt_Name <$> svc_Method srv)) (file_Service file))
         files.

Definition keys_unique (files : list FileDescriptorProto) : Prop :=
  toplevel_unique files ∧ members_unique files.

(** [current] keeps every value of [previous], unchanged. *)
Definition enum_extends (previous current : EnumDescriptorProto) : Prop :=
  en_Name previous = en_Name current ∧ en_Value previous ⊆ en_Value current.

(** [current] keeps every method of [previous], unchanged. *)
Definition service_extends (previous current : ServiceDescriptorProto) : Prop :=
  svc_Name previous = svc_Name current ∧ svc_Method previous ⊆ svc_Method current.

(** [current] keeps every field and every reservation of [previous],
    unchanged. *)
Definition message_extends (previous current : DescriptorProto) : Prop :=
  msg_Name previous = msg_Name current
  ∧ msg_Field previous ⊆ msg_Field current
  ∧ msg_ReservedName previous ⊆ msg_ReservedName current
  ∧ msg_ReservedRange previous ⊆ msg_ReservedRange current.

(** The package of [file] still exists in [current] and has, for every
    declaration of [file], a declaration of the same name that extends it. *)
Definition file_extends (current : list FileDescriptorProto) (file : FileDescriptorProto)
    : Prop :=
  let next := files_of (file_Package file) current in
  next ≠ []
  ∧ Forall (λ enum, Exists (enum_extends enum) (next ≫= file_EnumType))
           (file_EnumType file)
  ∧ Forall (λ srv, Exists (service_extends srv) (next ≫= file_Service))
           (file_Service file)
  ∧ Forall (λ msg, Exists (message_extends msg) (next ≫= file_MessageType))
           (file_MessageType file).

(** [current] differs from [previous] only by additions. *)
Definition extends_additively (previous current : list FileDescriptorProto) : Prop :=
  Forall (file_extends current) previous.

(** ** Sample descriptor trees *)

Definition sample_field (name : string) (number : Z) : FieldDescriptorProto :=
  {| fd_Name := name; fd_Number := number; fd_Label := Some 1; fd_Type := Some 9;
     fd_TypeName := None |}.

(** [message HelloRequest { optional string name = 5; }] *)
Definition sample_msg_with_field5 : DescriptorProto :=
  {| msg_Name := "HelloRequest"; msg_Field := [sample_field "name" 5];
     msg_ReservedRange := []; msg_ReservedName := [] |}.

(** [message HelloRequest { reserved 2 to 4; reserved "name"; }]: the range
    is stored as [Start = 2], [End = 5]. *)
Definition sample_msg_reserved_2_to_4 : DescriptorProto :=
  {| msg_Name := "HelloRequest"; msg_Field := [];
     msg_ReservedRange := [ {| rr_Start := 2; rr_End := 5 |} ];
     msg_ReservedName := ["name"] |}.

Definition sample_file (package_name : string) (messages : list DescriptorProto)
    (enums : list EnumDescriptorProto) (services : list ServiceDescriptorProto)
    : FileDescriptorProto :=
  {| file_Package := package_name; file_MessageType := messages;
     file_EnumType := enums; file_Service := services |}.

Definition sample_method (client server : option bool) : MethodDescriptorProto :=
  {| mt_Name := "Invoke"; mt_InputType := ".helloworld.FooRequest";
     mt_OutputType := ".helloworld.FooResponse";
     mt_ClientStreaming := client; mt_ServerStreaming := server |}.

Definition sample_service (method : MethodDescriptorProto) : ServiceDescriptorProto :=
  {| svc_Name := "Foo"; svc_Method := [method] |}.

(** [optional .a.A foo = 1] and [repeated .a.B bar = 1]: the same number,
    everything else different. *)
Definition sample_field_before : FieldDescriptorProto :=
  {| fd_Name := "foo"; fd_Number := 1; fd_Label := Some 1; fd_Type := Some 11;
     fd_TypeName := Some ".a.A" |}.

Definition sample_field_after : FieldDescriptorProto :=
  {| fd_Name := "bar"; fd_Number := 1; fd_Label := Some 3; fd_Type := Some 14;
     fd_TypeName := Some ".a.B" |}.

Definition sample_msg_field_after : DescriptorProto :=
  {| msg_Name := "HelloRequest"; msg_Field := [sample_field_after];
     msg_ReservedRange := []; msg_ReservedName := [] |}.

Definition sample_value (name : string) (number : Z) : EnumValueDescriptorProto :=
  {| ev_Name := name; ev_Number := number |}.

(** [enum FOO { bar = 0; bat = 1; baz = 5; qux = 7; }] *)
Definition sample_enum_before : EnumDescriptorProto :=
  {| en_Name := "FOO";
     en_Value := [sample_value "bar" 0; sample_value "bat" 1; sample_value "baz" 5;
                  sample_value "qux" 7] |}.

(** [enum FOO { bar = 0; bat = 2; zab = 5; }] *)
Definition sample_enum_after : EnumDescriptorProto :=
  {| en_Name := "FOO";
     en_Value := [sample_value "bar" 0; sample_value "bat" 2; sample_value "zab" 5] |}.

Definition sample_msg (name : string) (fields : list FieldDescriptorProto)
    : DescriptorProto :=
  {| msg_Name := name; msg_Field := fields; msg_ReservedRange := [];
     msg_ReservedName := [] |}.

Definition sample_enum (name : string) (values : list EnumValueDescriptorProto)
    : EnumDescriptorProto :=
  {| en_Name := name; en_Value := values |}.

(** One file with a message, an enum and a service. *)
Definition sample_snapshot_v1 : list FileDescriptorProto :=
  [ sample_file "helloworld"
      [sample_msg "HelloRequest" [sample_field "name" 1]]
      [sample_enum "FOO" [sample_value "bar" 0]]
      [sample_service (sample_method None None)] ].

(** The same declarations with a field, a message, an enum value, a method
    and a package added. *)
Definition sample_snapshot_v2 : list FileDescriptorProto :=
  [ sample_file "helloworld"
      [sample_msg "HelloRequest" [sample_field "name" 1; sample_field "age" 2];
       sample_msg "HelloReply" []]
      [sample_enum "FOO" [sample_value "bar" 0; sample_value "bat" 1]]
      [ {| svc_Name := "Foo";
           svc_Method := [ sample_method None None;
                           {| mt_Name := "Other"; mt_InputType := ".helloworld.HelloRequest";
                              mt_OutputType := ".helloworld.HelloReply";
                              mt_ClientStreaming := None;
                              mt_ServerStreaming := Some true |} ] |} ];
    sample_file "other" [sample_msg "HelloRequest" []] [] [] ].

(** Two files of one package that both declare enum [FOO]. *)
Definition sample_snapshot_shadowed_enum : list FileDescriptorProto :=
  [ sample_file "helloworld" [] [sample_enum "FOO" [sample_value "bar" 0]] [];
    sample_file "helloworld" [] [sample_enum "FOO" [sample_value "bat" 1]] [] ].

(** A message with two fields numbered 1. *)
Definition sample_snapshot_duplicate_number : list FileDescriptorProto :=
  [ sample_file "helloworld"
      [sample_msg "HelloRequest" [sample_field "foo" 1; sample_field "bar" 1]] [] [] ].

(** A service with two methods named [Invoke]. *)
Definition sample_snapshot_duplicate_method : list FileDescriptorProto :=
  [ sample_file "helloworld" [] []
      [ {| svc_Name := "Foo";
           svc_Method := [ sample_method None None; sample_method (Some true) None ] |} ] ].

(** [sample_snapshot_v1] plus a second file of the same package that
    declares message [HelloRequest] again, without fields. *)
Definition sample_snapshot_v1_shadowed : list FileDescriptorProto :=
  sample_snapshot_v1 ++ [ sample_file "helloworld" [sample_msg "HelloRequest" []] [] [] ].

(** Two files of one package, each with one enum, and the package without
    them. *)
Definition sample_file_enum_A : FileDescriptorProto :=
  sample_file "helloworld" [] [sample_enum "A" [sample_value "a" 0]] [].

Definition sample_file_enum_B : FileDescriptorProto :=
  sample_file "helloworld" [] [sample_enum "B" [sample_value "b" 0]] [].

Definition sample_snapshot_no_enums : list FileDescriptorProto :=
  [ sample_file "helloworld" [] [] []; sample_file "other" [] [] [] ].

(** ** Vocabulary of the properties of the single differs *)

(** The [Message] field of the Changes [diffMsg] produces; [None] for every
    other kind, [ProblemRemovedMessage] included. *)
Definition Change_Message (ch : Change) : option string :=
  match ch with
  | ProblemChangedFieldType Message _ _ _ _
  | ProblemChangedFieldComplexType Message _ _ _
  | ProblemChangedFieldName Message _ _ _
  | ProblemChangedFieldLabel Message _ _ _
  | ProblemRemovedField Message _
  | ProblemUnreservedFieldName Message _
  | ProblemUnreservedFieldNumber Message _ _ => Some Message
  | _ => None
  end.

(** The [Enum] field of the Changes [diffEnum] produces; [None] for every
    other kind, [ProblemRemovedEnum] included. *)
Definition Change_Enum (ch : Change) : option string :=
  match ch with
  | ProblemRemovedEnumValue Enum _
  | ProblemChangeEnumValue Enum _ _ _
  | ProblemChangeEnumName Enum _ _ _ => Some Enum
  | _ => None
  end.

(** The [Service] field of the Changes [diffService] produces; [None] for
    every other kind, [ProblemRemovedService] included. *)
Definition Change_Service (ch : Change) : option string :=
  match ch with
  | ProblemRemovedServiceMethod Service _
  | ProblemChangedService Service _ _ _ _
  | ProblemChangedServiceStreaming Service _ _ _ _ => Some Service
  | _ => None
  end.

(** The last element of [l] filed under key [k]: what a loop
    [m[key(x)] = x] over [l] leaves at [k]. *)
Definition last_with {A K} `{EqDecision K} (key : A → K) (k : K) (l : list A) : option A :=
  last (filter (λ x, key x = k) l).

(** [rpc Invoke(stream .helloworld.BarRequest) returns (stream .helloworld.BarResponse)] *)
Definition sample_method_changed : MethodDescriptorProto :=
  {| mt_Name := "Invoke"; mt_InputType := ".helloworld.BarRequest";
     mt_OutputType := ".helloworld.BarResponse";
     mt_ClientStreaming := Some true; mt_ServerStreaming := Some true |}.

(** What the body of the loop of [diffFiles] contributes for one package of
    the previous snapshot. *)
Definition package_Changes (previous current : list FileDescriptorProto)
    (package_name : string) : list Change :=
  if decide (files_of package_name current = [])
  then [ ProblemRemovedPackage package_name ]
  else emitted (λ report, diffPackage report (files_of package_name previous)
                            (files_of package_name current)).

(** ** Properties *)

(** *** The report is append-only *)

Lemma appends_skip : appends (λ report, report).
Proof. intros report. unfold emitted. simpl. by rewrite app_nil_r. Qed.

Lemma appends_Add ch : appends (λ report, Add report ch).
Proof. intros report. reflexivity. Qed.

Lemma emitted_seq (f g : Report → Report) :
  appends g → emitted (λ report, g (f report)) = (emitted f ++ emitted g)%list.
Proof. intros Hg. unfold emitted at 1. by rewrite Hg. Qed.

Lemma appends_seq (f g : Report → Report) :
  appends f → appends g → appends (λ report, g (f report)).
Proof.
  intros Hf Hg report. rewrite emitted_seq by done.
  rewrite Hg, Hf. by rewrite app_assoc.
Qed.

Lemma appends_foldl {A} (step : Report → A → Report) (l : list A) :
  (∀ x, appends (λ report, step report x)) →
  appends (λ report, foldl step report l).
Proof.
  intros Hstep. induction l as [|x l IH] using rev_ind.
  - apply appends_skip.
  - intros report. unfold emitted. rewrite !foldl_app. simpl.
    rewrite (Hstep x), IH, (Hstep x (foldl _ _ _)).
    fold (emitted (λ report, foldl step report l)).
    by rewrite app_assoc.
Qed.

Lemma emitted_foldl {A} (step : Report → A → Report) (l : list A) :
  (∀ x, appends (λ report, step report x)) →
  emitted (λ report, foldl step report l) = l ≫= (λ x, emitted (λ report, step report x)).
Proof.
  intros Hstep. induction l as [|x l IH] using rev_ind; [done|].
  rewrite bind_app, bind_singleton, <-IH.
  unfold emitted at 1. rewrite foldl_app. simpl. by rewrite (Hstep x).
Qed.

Create HintDb appends discriminated.
#[local] Hint Resolve appends_skip appends_Add : appends.

Ltac appends_cases :=
  intros report; unfold emitted; simpl;
  repeat case_match; simpl; rewrite ?app_nil_r, <-?app_assoc; done.

Lemma appends_diffFields_step current curr field :
  appends (λ report, diffFields_step current curr report field).
Proof. unfold diffFields_step. appends_cases. Qed.
#[local] Hint Resolve appends_diffFields_step : appends.

Lemma appends_diffFields previous current :
  appends (λ report, diffFields report previous current).
Proof. apply appends_foldl, appends_diffFields_step. Qed.
#[local] Hint Resolve appends_diffFields : appends.

Lemma appends_diffReservedNames_step current prev_name :
  appends (λ report, diffReservedNames_step current report prev_name).
Proof. unfold diffReservedNames_step. appends_cases. Qed.
#[local] Hint Resolve appends_diffReservedNames_step : appends.

Lemma appends_diffReservedNames previous current :
  appends (λ report, diffReservedNames report previous current).
Proof. apply appends_foldl, appends_diffReservedNames_step. Qed.
#[local] Hint Resolve appends_diffReservedNames : appends.

Lemma appends_diffReservedNumbers_step current prev_range :
  appends (λ report, diffReservedNumbers_step current report prev_range).
Proof. unfold diffReservedNumbers_step. appends_cases. Qed.
#[local] Hint Resolve appends_diffReservedNumbers_step : appends.

Lemma appends_diffReservedNumbers previous current :
  appends (λ report, diffReservedNumbers report previous current).
Proof. apply appends_foldl, appends_diffReservedNumbers_step. Qed.
#[local] Hint Resolve appends_diffReservedNumbers : appends.

Lemma appends_diffMsg previous current :
  appends (λ report, diffMsg report previous current).
Proof.
  unfold diffMsg.
  apply (appends_seq (λ report, diffReservedNames (diffFields report previous current)
                                  previous current)
                     (λ report, diffReservedNumbers report previous current)).
  - apply (appends_seq (λ report, diffFields report previous current)
                       (λ report, diffReservedNames report previous current));
      auto with appends.
  - apply appends_diffReservedNumbers.
Qed.
#[local] Hint Resolve appends_diffMsg : appends.

Lemma emitted_diffMsg previous current :
  emitted (λ report, diffMsg report previous current) =
    (emitted (λ report, diffFields report previous current)
     ++ emitted (λ report, diffReservedNames report previous current)
     ++ emitted (λ report, diffReservedNumbers report previous current))%list.
Proof.
  unfold diffMsg.
  rewrite (emitted_seq (λ report, diffReservedNames (diffFields report previous current)
                                    previous current)
                       (λ report, diffReservedNumbers report previous current))
    by apply appends_diffReservedNumbers.
  rewrite (emitted_seq (λ report, diffFields report previous current)
                       (λ report, diffReservedNames report previous current))
    by apply appends_diffReservedNames.
  by rewrite app_assoc.
Qed.

Lemma appends_diffEnum_number_step previous byvalue byname value :
  appends (λ report, diffEnum_number_step previous byvalue byname report value).
Proof. unfold diffEnum_number_step. appends_cases. Qed.
#[local] Hint Resolve appends_diffEnum_number_step : appends.

Lemma appends_diffEnum_name_step previous byvalue byname value :
  appends (λ report, diffEnum_name_step previous byvalue byname report value).
Proof. unfold diffEnum_name_step. appends_cases. Qed.
#[local] Hint Resolve appends_diffEnum_name_step : appends.

Lemma appends_diffEnum previous current :
  appends (λ report, diffEnum report previous current).
Proof.
  unfold diffEnum.
  apply (appends_seq
           (λ report, foldl (diffEnum_number_step previous _ _) report (en_Value previous))
           (λ report, foldl (diffEnum_name_step previous _ _) report (en_Value previous)));
    apply appends_foldl;
    auto with appends.
Qed.
#[local] Hint Resolve appends_diffEnum : appends.

Lemma appends_diffService_step previous current curr prev :
  appends (λ report, diffService_step previous current curr report prev).
Proof. unfold diffService_step. appends_cases. Qed.
#[local] Hint Resolve appends_diffService_step : appends.

Lemma appends_diffService previous current :
  appends (λ report, diffService report previous current).
Proof. apply appends_foldl, appends_diffService_step. Qed.
#[local] Hint Resolve appends_diffService : appends.

(** *** Reservations *)

Lemma reserved_name_scan_true names field :
  reserved_name_scan names field = true ↔ fd_Name field ∈ names.
Proof.
  induction names as [|name rest IH]; simpl.
  - split; [done|]. by intros ?%elem_of_nil.
  - unfold cmp_Equal. rewrite elem_of_cons. case_bool_decide as Heq.
    + split; [intros _; by left|done].
    + rewrite IH. split; [by right|]. intros [?|?]; [congruence|done].
Qed.

Lemma reserved_number_scan_true ranges field :
  reserved_number_scan ranges field = true ↔
  ∃ rrange, rrange ∈ ranges ∧ rr_Start rrange ≤ fd_Number field ≤ rr_End rrange.
Proof.
  induction ranges as [|rrange rest IH]; simpl.
  - split; [done|]. intros (? & ?%elem_of_nil & _). done.
  - assert (((fd_Number field >=? rr_Start rrange)
             && (fd_Number field <=? rr_End rrange)) = true
            ↔ rr_Start rrange ≤ fd_Number field ≤ rr_End rrange) as Hhere
      by (rewrite andb_true_iff; lia).
    destruct (_ && _).
    + split; [intros _|done]. exists rrange. split; [left|by apply Hhere].
    + rewrite IH. split.
      * intros (r & Hr & Hin). exists r. split; [by right|done].
      * intros (r & [->|Hr]%elem_of_cons & Hin).
        -- by apply Hhere in Hin.
        -- by exists r.
Qed.

(** What [hasReserved] decides: the name is reserved and the number lies in
    the closed interval [[Start, End]] of some reserved range. *)
Lemma hasReserved_true message field :
  hasReserved message field = true ↔
  fd_Name field ∈ msg_ReservedName message ∧
  ∃ rrange, rrange ∈ msg_ReservedRange message
            ∧ rr_Start rrange ≤ fd_Number field ≤ rr_End rrange.
Proof.
  unfold hasReserved.
  by rewrite andb_true_iff, reserved_name_scan_true, reserved_number_scan_true.
Qed.

Lemma reserved_name_found_true curr_names prev_name :
  reserved_name_found curr_names prev_name = true ↔ prev_name ∈ curr_names.
Proof.
  induction curr_names as [|name rest IH]; simpl.
  - split; [done|]. by intros ?%elem_of_nil.
  - unfold cmp_Equal. rewrite elem_of_cons. case_bool_decide as Heq.
    + split; [intros _; by left|done].
    + rewrite IH. split; [by right|]. intros [?|?]; [congruence|done].
Qed.

Lemma reserved_range_found_true curr_ranges prev_range :
  reserved_range_found curr_ranges prev_range = true ↔
  Exists (range_within prev_range) curr_ranges.
Proof.
  induction curr_ranges as [|curr_range rest IH]; simpl.
  - split; [done|]. by intros ?%Exists_nil.
  - assert (((rr_Start prev_range >=? rr_Start curr_range)
             && (rr_End prev_range <=? rr_End curr_range)) = true
            ↔ range_within prev_range curr_range) as Hhere
      by (unfold range_within; rewrite andb_true_iff; lia).
    rewrite Exists_cons. destruct (_ && _).
    + split; [intros _|done]. left. by apply Hhere.
    + rewrite IH. split; [by right|]. intros [Hin|?]; [|done].
      by apply Hhere in Hin.
Qed.

Lemma bind_if_singleton {A B} (P : A → Prop) `{∀ x, Decision (P x)}
    (c : A → bool) (g : A → B) (l : list A) :
  (∀ x, c x = true ↔ P x) →
  l ≫= (λ x, if c x then [g x] else []) = g <$> filter P l.
Proof.
  intros Hc. induction l as [|x l IH]; [done|].
  rewrite bind_cons, filter_cons, IH.
  destruct (c x) eqn:Hx.
  - apply Hc in Hx. by rewrite decide_True.
  - rewrite decide_False; [done|]. intros HP%Hc. congruence.
Qed.

Lemma emitted_diffReservedNumbers previous current :
  emitted (λ report, diffReservedNumbers report previous current) =
    unreserved_range current
      <$> filter (λ prev_range, ¬ range_covered current prev_range)
                 (msg_ReservedRange previous).
Proof.
  unfold diffReservedNumbers.
  rewrite emitted_foldl by apply appends_diffReservedNumbers_step.
  rewrite <-(bind_if_singleton _
               (λ r, negb (reserved_range_found (msg_ReservedRange current) r))).
  - apply list_bind_ext; [|done]. intros r.
    unfold diffReservedNumbers_step, emitted. by destruct (negb _).
  - intros r. rewrite negb_true_iff, <-not_true_iff_false.
    by rewrite reserved_range_found_true.
Qed.

(** C2. For a previous message diffed against its current counterpart,
    [diffReservedNumbers] appends one "un-reserved field number(s)" Change
    for each previous reserved range that no single current reserved range
    contains, and nothing for the others: a previous range's Change is in
    the report if and only if there is no current range with
    [current.Start ≤ previous.Start] and [previous.End ≤ current.End].
    A range split into two adjacent current ranges is still reported. *)
Theorem diffReservedNumbers_reports_uncovered
    (report : Report) (previous current : DescriptorProto) :
  Changes (diffReservedNumbers report previous current) =
    (Changes report
     ++ (unreserved_range current
           <$> filter (λ prev_range, ¬ range_covered current prev_range)
                      (msg_ReservedRange previous)))%list
  ∧ (∀ prev_range,
       prev_range ∈ msg_ReservedRange previous →
       ProblemUnreservedFieldNumber (msg_Name current)
           (rr_Start prev_range) (rr_End prev_range)
         ∈ emitted (λ report, diffReservedNumbers report previous current)
       ↔ ¬ ∃ curr_range, curr_range ∈ msg_ReservedRange current
                          ∧ rr_Start curr_range ≤ rr_Start prev_range
                          ∧ rr_End prev_range ≤ rr_End curr_range)
  ∧ (∀ a b c,
       a < b → b < c →
       msg_ReservedRange previous = [ {| rr_Start := a; rr_End := c |} ] →
       msg_ReservedRange current =
         [ {| rr_Start := a; rr_End := b |}; {| rr_Start := b; rr_End := c |} ] →
       emitted (λ report, diffReservedNumbers report previous current) =
         [ ProblemUnreservedFieldNumber (msg_Name current) a c ]).
Proof.
  split_and!.
  - by rewrite appends_diffReservedNumbers, emitted_diffReservedNumbers.
  - intros prev_range Hin. rewrite emitted_diffReservedNumbers.
    change (ProblemUnreservedFieldNumber _ _ _) with (unreserved_range current prev_range).
    rewrite list_elem_of_fmap. setoid_rewrite list_elem_of_filter.
    unfold range_covered. setoid_rewrite Exists_exists. unfold range_within. split.
    + intros (r & Heq & Hr & _). unfold unreserved_range in Heq.
      destruct r, prev_range; simplify_eq/=. done.
    + intros Hnone. by exists prev_range.
  - intros a b c Hab Hbc Hprev Hcurr. rewrite emitted_diffReservedNumbers, Hprev.
    rewrite filter_cons, decide_True; [done|].
    unfold range_covered. rewrite Hcurr, !Exists_cons, Exists_nil.
    unfold range_within. simpl. lia.
Qed.

Lemma diffReservedNumbers_reports_uncovered_witness :
  let previous := {| msg_Name := "HelloRequest"; msg_Field := [];
                     msg_ReservedRange := [ {| rr_Start := 1; rr_End := 4 |} ];
                     msg_ReservedName := [] |} in
  let current := {| msg_Name := "HelloRequest"; msg_Field := [];
                    msg_ReservedRange := [ {| rr_Start := 1; rr_End := 2 |};
                                           {| rr_Start := 2; rr_End := 4 |} ];
                    msg_ReservedName := [] |} in
  emitted (λ report, diffReservedNumbers report previous current) =
    [ ProblemUnreservedFieldNumber "HelloRequest" 1 4 ]
  ∧ (ProblemUnreservedFieldNumber "HelloRequest" 1 4
       ∈ emitted (λ report, diffReservedNumbers report previous current)
     ↔ ¬ ∃ curr_range, curr_range ∈ msg_ReservedRange current
                        ∧ rr_Start curr_range ≤ 1 ∧ 4 ≤ rr_End curr_range).
Proof.
  intros previous current.
  destruct (diffReservedNumbers_reports_uncovered empty_report previous current)
    as (_ & Hiff & Hsplit).
  split.
  - apply (Hsplit 1 2 4); [lia|lia|reflexivity|reflexivity].
  - apply (Hiff {| rr_Start := 1; rr_End := 4 |}). simpl. left.
Defined.

(** *** Rendering of un-reserved ranges *)

Lemma int32_wrap_id z : is_int32 z → int32_wrap z = z.
Proof.
  unfold is_int32, int32_wrap. intros Hz.
  rewrite Z.mod_small by lia. lia.
Qed.

(** C10. [ProblemUnreservedFieldNumber.String] chooses its text by the width
    [End-Start], an [int32] subtraction: above 1 it renders
    "un-reserved field number(s) in range <Start> to <End-1> from message
    '<msg>'", otherwise the singular "un-reserved field number <Start> from
    message '<msg>'".  Whenever [Start], [End] and their difference are
    [int32] values the subtraction is the mathematical one. *)
Theorem ProblemUnreservedFieldNumber_String_by_width (Message : string) (Start End : Z) :
  Change_String (ProblemUnreservedFieldNumber Message Start End) =
    (if int32_sub End Start >? 1
     then "un-reserved field number(s) in range " +:+ fmt_d Start +:+ " to "
            +:+ fmt_d (int32_sub End 1) +:+ " from message '" +:+ Message +:+ "'"
     else "un-reserved field number " +:+ fmt_d Start +:+ " from message '"
            +:+ Message +:+ "'")
  ∧ (is_int32 Start → is_int32 End → is_int32 (End - Start) →
     (End - Start > 1 →
      Change_String (ProblemUnreservedFieldNumber Message Start End) =
        "un-reserved field number(s) in range " +:+ fmt_d Start +:+ " to "
          +:+ fmt_d (End - 1) +:+ " from message '" +:+ Message +:+ "'")
     ∧ (End - Start ≤ 1 →
        Change_String (ProblemUnreservedFieldNumber Message Start End) =
          "un-reserved field number " +:+ fmt_d Start +:+ " from message '"
            +:+ Message +:+ "'")).
Proof.
  split; [reflexivity|].
  intros HS HE HW. simpl. unfold ProblemUnreservedFieldNumber_String.
  unfold int32_sub. rewrite (int32_wrap_id (End - Start)) by done.
  split; intros Hw.
  - rewrite (int32_wrap_id (End - 1)) by (unfold is_int32 in *; lia).
    destruct (_ >? _) eqn:Hgt; [done|]. lia.
  - destruct (_ >? _) eqn:Hgt; [lia|done].
Qed.

Lemma ProblemUnreservedFieldNumber_String_by_width_witness :
  Change_String (ProblemUnreservedFieldNumber "HelloRequest" 1 4) =
    "un-reserved field number(s) in range 1 to 3 from message 'HelloRequest'"
  ∧ Change_String (ProblemUnreservedFieldNumber "HelloRequest" 7 8) =
      "un-reserved field number 7 from message 'HelloRequest'".
Proof.
  split.
  - destruct (ProblemUnreservedFieldNumber_String_by_width "HelloRequest" 1 4)
      as [_ Hmath].
    destruct Hmath as [Hplural _]; [unfold is_int32; lia..|].
    rewrite Hplural by lia. reflexivity.
  - destruct (ProblemUnreservedFieldNumber_String_by_width "HelloRequest" 7 8)
      as [_ Hmath].
    destruct Hmath as [_ Hsingular]; [unfold is_int32; lia..|].
    rewrite Hsingular by lia. reflexivity.
Defined.

(** *** Removed fields and reservations *)

(** What the code does for a previous field whose number the current
    message no longer has: the removal is silent exactly when the name is
    reserved and the number lies in the closed interval [[Start, End]] of a
    current reserved range. *)
Lemma diffFields_step_removed_silent current curr field :
  curr !! fd_Number field = None →
  emitted (λ report, diffFields_step current curr report field) = []
  ↔ fd_Name field ∈ msg_ReservedName current
    ∧ ∃ rrange, rrange ∈ msg_ReservedRange current
                ∧ rr_Start rrange ≤ fd_Number field ≤ rr_End rrange.
Proof.
  intros Hnone. rewrite <-hasReserved_true.
  unfold emitted, diffFields_step. rewrite Hnone.
  by destruct (hasReserved current field).
Qed.

(** C1 (the code departs from the claim). A removed field numbered exactly
    [End] of a current reserved range, with its name reserved, is not
    reported, although [End] is outside the half-open range
    [[Start, End)]: [hasReserved] tests [Number <= End].  Here field
    [name = 5] is removed and the current message reserves [2 to 4]
    (stored as [Start = 2], [End = 5]) and ["name"]. *)
Theorem diffFields_silent_at_range_end :
  fields_by_number (msg_Field sample_msg_reserved_2_to_4) !! 5 = None
  ∧ "name" ∈ msg_ReservedName sample_msg_reserved_2_to_4
  ∧ (¬ ∃ rrange, rrange ∈ msg_ReservedRange sample_msg_reserved_2_to_4
                 ∧ in_reserved_range 5 rrange)
  ∧ hasReserved sample_msg_reserved_2_to_4 (sample_field "name" 5) = true
  ∧ emitted (λ report, diffFields report sample_msg_with_field5
                         sample_msg_reserved_2_to_4) = []
  ∧ diffFiles [sample_file "helloworld" [sample_msg_with_field5] [] []]
              [sample_file "helloworld" [sample_msg_reserved_2_to_4] [] []]
    = (empty_report, None).
Proof.
  split_and!; try by vm_compute.
  - simpl. rewrite list_elem_of_singleton. done.
  - intros (rrange & Hin & Hrange). simpl in Hin.
    apply list_elem_of_singleton in Hin as ->.
    unfold in_reserved_range in Hrange. simpl in Hrange. lia.
Qed.

(** *** Streaming flags *)

(** C4 (the code departs from the claim). [diffService] compares the two
    streaming flags with [cmp.Equal] on the [*bool] pointers, which looks at
    the pointed-to values, while the rendering prints only whether each
    pointer is set.  With both flags present, [true] before and [false]
    after, a Change is emitted and it renders as "true -> true"; with the
    flag absent before and present as [false] after, a Change is emitted
    as well. *)
Theorem diffService_streaming_compares_values :
  emitted (λ report, diffService report
                       (sample_service (sample_method (Some true) None))
                       (sample_service (sample_method (Some false) None)))
    = [ ProblemChangedServiceStreaming "Foo" "Invoke" "client" (Some true) (Some false) ]
  ∧ Change_String
      (ProblemChangedServiceStreaming "Foo" "Invoke" "client" (Some true) (Some false))
    = "changed client streaming for method 'Invoke' on service 'Foo': true -> true"
  ∧ emitted (λ report, diffService report
                         (sample_service (sample_method None None))
                         (sample_service (sample_method None (Some false))))
    = [ ProblemChangedServiceStreaming "Foo" "Invoke" "server" None (Some false) ]
  ∧ Change_String
      (ProblemChangedServiceStreaming "Foo" "Invoke" "server" None (Some false))
    = "changed server streaming for method 'Invoke' on service 'Foo': false -> true".
Proof. split_and!; by vm_compute. Qed.

(** *** Matched fields *)

Ltac matched_field_cases Hnext :=
  unfold emitted, diffFields_step; rewrite Hnext; unfold cmp_Equal; simpl;
  repeat case_bool_decide; simpl;
  repeat match goal with
         | |- context [match fd_TypeName ?f with _ => _ end] =>
             let E := fresh "Htn" in destruct (fd_TypeName f) eqn:E; simpl
         end;
  repeat case_bool_decide; simpl.

(** C5 (as amended). For a previous field matched by number to a current
    field, the name, type and label comparisons are independent: each
    emits its Change exactly when its own attribute differs.  The type-name
    reference is compared only when the type kinds are equal and both
    references are set, so "field type changed" and "field reference type
    changed" never occur together and a field yields at most three
    Changes. *)
Theorem diffFields_step_matched_checks
    (current : DescriptorProto) (curr : gmap Z FieldDescriptorProto)
    (field next : FieldDescriptorProto) :
  curr !! fd_Number field = Some next →
  let out := emitted (λ report, diffFields_step current curr report field) in
  (ProblemChangedFieldName (msg_Name current) (fd_Number field)
       (fd_Name field) (fd_Name next) ∈ out
     ↔ fd_Name field ≠ fd_Name next)
  ∧ (ProblemChangedFieldType (msg_Name current) 0 (fd_Name field)
         (fd_Type field) (fd_Type next) ∈ out
     ↔ fd_Type field ≠ fd_Type next)
  ∧ (∀ old_type new_type,
       ProblemChangedFieldComplexType (msg_Name current) (fd_Name field)
           old_type new_type ∈ out
       ↔ fd_Type field = fd_Type next ∧ fd_TypeName field = Some old_type
         ∧ fd_TypeName next = Some new_type ∧ old_type ≠ new_type)
  ∧ (ProblemChangedFieldLabel (msg_Name current) (fd_Name field)
         (fd_Label field) (fd_Label next) ∈ out
     ↔ fd_Label field ≠ fd_Label next)
  ∧ (length out ≤ 3)%nat
  ∧ (fd_Name field ≠ fd_Name next → fd_Type field ≠ fd_Type next →
     fd_Label field ≠ fd_Label next →
     out = [ ProblemChangedFieldName (msg_Name current) (fd_Number field)
               (fd_Name field) (fd_Name next);
             ProblemChangedFieldType (msg_Name current) 0 (fd_Name field)
               (fd_Type field) (fd_Type next);
             ProblemChangedFieldLabel (msg_Name current) (fd_Name field)
               (fd_Label field) (fd_Label next) ]).
Proof.
  intros Hnext out. subst out. split_and!.
  - matched_field_cases Hnext; rewrite ?elem_of_cons, ?elem_of_nil; naive_solver.
  - matched_field_cases Hnext; rewrite ?elem_of_cons, ?elem_of_nil; naive_solver.
  - intros old_type new_type.
    matched_field_cases Hnext; rewrite ?elem_of_cons, ?elem_of_nil; naive_solver.
  - matched_field_cases Hnext; rewrite ?elem_of_cons, ?elem_of_nil; naive_solver.
  - matched_field_cases Hnext; lia.
  - intros Hname Htype Hlabel. matched_field_cases Hnext; done.
Qed.

Lemma diffFields_step_matched_checks_witness :
  fields_by_number [sample_field_after] !! fd_Number sample_field_before
    = Some sample_field_after
  ∧ emitted (λ report, diffFields_step sample_msg_field_after
                         (fields_by_number [sample_field_after]) report
                         sample_field_before)
    = [ ProblemChangedFieldName "HelloRequest" 1 "foo" "bar";
        ProblemChangedFieldType "HelloRequest" 0 "foo" (Some 11) (Some 14);
        ProblemChangedFieldLabel "HelloRequest" "foo" (Some 1) (Some 3) ].
Proof.
  assert (fields_by_number [sample_field_after] !! fd_Number sample_field_before
          = Some sample_field_after) as Hnext by reflexivity.
  split; [exact Hnext|].
  pose proof (diffFields_step_matched_checks sample_msg_field_after
                (fields_by_number [sample_field_after])
                sample_field_before sample_field_after Hnext) as Hchecks.
  simpl in Hchecks. destruct Hchecks as (_ & _ & _ & _ & _ & Hall).
  apply Hall; discriminate.
Defined.

(** C5 (the claim as stated fails). A field whose name, type kind,
    type-name reference and label all differ from its current counterpart
    yields three Changes, not four: the reference comparison sits in the
    [else] branch of the type-kind comparison.  No matched field ever yields
    both a "type changed" and a "reference type changed" Change. *)
Lemma diffFields_step_not_all_four :
  emitted (λ report, diffFields report
                       {| msg_Name := "HelloRequest"; msg_Field := [sample_field_before];
                          msg_ReservedRange := []; msg_ReservedName := [] |}
                       sample_msg_field_after)
    = [ ProblemChangedFieldName "HelloRequest" 1 "foo" "bar";
        ProblemChangedFieldType "HelloRequest" 0 "foo" (Some 11) (Some 14);
        ProblemChangedFieldLabel "HelloRequest" "foo" (Some 1) (Some 3) ]
  ∧ ¬ ∃ current curr field next,
        curr !! fd_Number field = Some next
        ∧ (∃ m n f o t,
             ProblemChangedFieldType m n f o t
               ∈ emitted (λ report, diffFields_step current curr report field))
        ∧ (∃ m f o t,
             ProblemChangedFieldComplexType m f o t
               ∈ emitted (λ report, diffFields_step current curr report field)).
Proof.
  split; [by vm_compute|].
  intros (current & curr & field & next & Hnext & (m & n & f & o & t & Htype)
          & (m' & f' & o' & t' & Hcomplex)).
  revert Htype Hcomplex.
  matched_field_cases Hnext; rewrite ?elem_of_cons, ?elem_of_nil; naive_solver.
Qed.

(** *** Indices *)

Section index_by.
Context {K A : Type} `{Countable K} (key : A → K).

Lemma index_by_snoc l x : index_by key (l ++ [x]) = <[key x := x]> (index_by key l).
Proof. unfold index_by. by rewrite foldl_app. Qed.

Lemma index_by_None l k : index_by key l !! k = None ↔ k ∉ key <$> l.
Proof.
  induction l as [|x l IH] using rev_ind.
  - split; [intros _; apply not_elem_of_nil|done].
  - rewrite index_by_snoc, lookup_insert_None, IH, fmap_app, not_elem_of_app.
    simpl. rewrite list_elem_of_singleton. naive_solver.
Qed.

Lemma index_by_Some l k x : index_by key l !! k = Some x → x ∈ l ∧ key x = k.
Proof.
  induction l as [|y l IH] using rev_ind; [done|].
  rewrite index_by_snoc, lookup_insert_Some, elem_of_app, list_elem_of_singleton.
  intros [[<- <-]|[_ Hl]]; [by auto|]. apply IH in Hl as [??]. by auto.
Qed.

Lemma index_by_is_Some l k : is_Some (index_by key l !! k) ↔ k ∈ key <$> l.
Proof.
  rewrite <-not_eq_None_Some, index_by_None.
  split; [|by auto]. intros Hnn. by destruct (decide (k ∈ key <$> l)).
Qed.

Lemma index_by_NoDup l x :
  NoDup (key <$> l) → x ∈ l → index_by key l !! key x = Some x.
Proof.
  induction l as [|y l IH] using rev_ind; [by intros _ ?%elem_of_nil|].
  rewrite fmap_app, NoDup_app, elem_of_app, list_elem_of_singleton, index_by_snoc.
  intros (Hl & Hdisj & _) [Hx| ->]; [|by rewrite lookup_insert_eq].
  rewrite lookup_insert_ne; [by apply IH|].
  intros Heq. apply (Hdisj (key x)); [by apply list_elem_of_fmap_2|].
  rewrite <-Heq. simpl. left.
Qed.

Lemma index_by_Permutation l l' :
  NoDup (key <$> l) → l ≡ₚ l' → index_by key l = index_by key l'.
Proof.
  intros Hnd Hperm. apply map_eq. intros k.
  destruct (index_by key l !! k) as [x|] eqn:Hk.
  - apply index_by_Some in Hk as [Hx <-]. symmetry. apply index_by_NoDup.
    + by rewrite <-Hperm.
    + by rewrite <-Hperm.
  - symmetry. apply index_by_None. rewrite <-Hperm. by apply index_by_None.
Qed.
End index_by.

Lemma foldl_nested {S A B} (f : S → B → S) (g : A → list B) (l : list A) (s : S) :
  foldl (λ s x, foldl f s (g x)) s l = foldl f s (l ≫= g).
Proof.
  revert s. induction l as [|x l IH]; intros s; [done|].
  rewrite bind_cons, foldl_app. simpl. apply IH.
Qed.

(** *** Enum values *)



(** *** The failure signal *)

Lemma diffFiles_returns_diffFiles previous current :
  diffFiles_returns previous current (diffFiles previous current).
Proof. apply diffFiles_run. unfold range_order. reflexivity. Qed.

Lemma diffFiles_returns_inv previous current result :
  diffFiles_returns previous current result →
  ∃ order, range_order (groupByPackage previous) order
           ∧ result = diffFiles_over order current.
Proof. intros [order Horder]. eauto. Qed.

Lemma diffFiles_err_None report : diffFiles_err report = None ↔ Changes report = [].
Proof.
  unfold diffFiles_err. destruct (Changes report) as [|ch chs]; [done|].
  assert ((Z.of_nat (length (ch :: chs)) >? 0) = true) as ->
    by (apply Z.gtb_lt; simpl length; lia).
  done.
Qed.

(** C6. Every run of [diffFiles] returns its Report together with an error
    value; the error is non-nil if and only if the Report is non-empty, and
    then its message is "found N problems: " followed by the [%s] rendering
    of the Changes, N being their number.  [diffFiles] returns on every pair
    of snapshots. *)
Theorem diffFiles_error_iff_nonempty (previous current : list FileDescriptorProto) :
  diffFiles_returns previous current (diffFiles previous current)
  ∧ ∀ report err,
      diffFiles_returns previous current (report, err) →
      (err ≠ None ↔ Changes report ≠ [])
      ∧ (Changes report ≠ [] →
         err = Some ("found " +:+ fmt_d (Z.of_nat (length (Changes report)))
                       +:+ " problems: " +:+ fmt_s_Changes (Changes report))).
Proof.
  split; [apply diffFiles_returns_diffFiles|].
  intros report err (order & Horder & Heq)%diffFiles_returns_inv.
  unfold diffFiles_over in Heq. injection Heq as -> ->.
  set (final := foldl _ _ order). split.
  - by rewrite diffFiles_err_None.
  - intros Hne. unfold diffFiles_err.
    destruct (Changes final) as [|ch chs]; [done|].
    assert ((Z.of_nat (length (ch :: chs)) >? 0) = true) as ->
      by (apply Z.gtb_lt; simpl length; lia).
    done.
Qed.

Lemma diffFiles_error_iff_nonempty_witness :
  let previous :=
    [ sample_file "helloworld" [] [sample_enum_before] [];
      sample_file "foo" [] [] [] ] in
  let current := [ sample_file "helloworld" [] [sample_enum_after] [] ] in
  Changes (fst (diffFiles previous current)) ≠ []
  ∧ snd (diffFiles previous current) =
      Some "found 4 problems: [removed package 'foo' changed value 'bat' on enum 'FOO': 1 -> 2 removed value 'qux' from enum 'FOO' changed name of field #5 on enum 'FOO': baz -> zab]".
Proof.
  intros previous current.
  assert (Changes (fst (diffFiles previous current)) ≠ []) as Hne
    by (vm_compute; discriminate).
  split; [exact Hne|].
  destruct (diffFiles_error_iff_nonempty previous current) as [Hrun Herr].
  destruct (diffFiles previous current) as [report err] eqn:Hdiff.
  destruct (Herr report err Hrun) as [_ Hmsg].
  simpl in *. rewrite (Hmsg Hne).
  vm_compute in Hdiff. injection Hdiff as <- <-. reflexivity.
Defined.

(** *** Packages and snapshots, as lists *)

Lemma emitted_ext (f g : Report → Report) : (∀ report, f report = g report) → emitted f = emitted g.
Proof. intros Hfg. unfold emitted. by rewrite Hfg. Qed.

Lemma appends_ext (f g : Report → Report) :
  (∀ report, f report = g report) → appends g → appends f.
Proof.
  intros Hfg Hg report. by rewrite (emitted_ext f g), Hfg.
Qed.

Lemma bind_all_nil {A B} (f : A → list B) (l : list A) :
  (∀ x, x ∈ l → f x = []) → l ≫= f = [].
Proof.
  induction l as [|x l IH]; [done|]. intros Hall.
  rewrite bind_cons, Hall by left. simpl. apply IH. intros y Hy. apply Hall. by right.
Qed.

Lemma filter_none {A} (P : A → Prop) `{∀ x, Decision (P x)} (l : list A) :
  (∀ x, x ∈ l → ¬ P x) → filter P l = [].
Proof.
  induction l as [|x l IH]; [done|]. intros Hall.
  rewrite filter_cons, decide_False by (apply Hall; left).
  apply IH. intros y Hy. apply Hall. by right.
Qed.

Lemma enums_by_name_index current :
  enums_by_name current = index_by en_Name (current ≫= file_EnumType).
Proof. unfold enums_by_name, index_by. apply foldl_nested. Qed.

Lemma services_by_name_index current :
  services_by_name current = index_by svc_Name (current ≫= file_Service).
Proof. unfold services_by_name, index_by. apply foldl_nested. Qed.

Lemma messages_by_name_index current :
  messages_by_name current = index_by msg_Name (current ≫= file_MessageType).
Proof. unfold messages_by_name, index_by. apply foldl_nested. Qed.

Lemma appends_diffPackage_enum_step curr enum :
  appends (λ report, diffPackage_enum_step curr report enum).
Proof.
  unfold diffPackage_enum_step.
  destruct (curr !! en_Name enum); [apply appends_diffEnum|apply appends_Add].
Qed.
#[local] Hint Resolve appends_diffPackage_enum_step : appends.

Lemma appends_diffPackage_service_step curr srv :
  appends (λ report, diffPackage_service_step curr report srv).
Proof.
  unfold diffPackage_service_step.
  destruct (curr !! svc_Name srv); [apply appends_diffService|apply appends_Add].
Qed.
#[local] Hint Resolve appends_diffPackage_service_step : appends.

Lemma appends_diffPackage_message_step curr msg :
  appends (λ report, diffPackage_message_step curr report msg).
Proof.
  unfold diffPackage_message_step.
  destruct (curr !! msg_Name msg); [apply appends_diffMsg|apply appends_Add].
Qed.
#[local] Hint Resolve appends_diffPackage_message_step : appends.

(** [diffPackage] as three flat loops over the declarations of the previous
    files. *)
Lemma diffPackage_flat report previous current :
  diffPackage report previous current =
    foldl (diffPackage_message_step (messages_by_name current))
      (foldl (diffPackage_service_step (services_by_name current))
         (foldl (diffPackage_enum_step (enums_by_name current)) report
            (previous ≫= file_EnumType))
         (previous ≫= file_Service))
      (previous ≫= file_MessageType).
Proof. unfold diffPackage. by rewrite !foldl_nested. Qed.

Lemma appends_diffPackage previous current :
  appends (λ report, diffPackage report previous current).
Proof.
  eapply appends_ext; [intros report; apply diffPackage_flat|].
  apply (appends_seq
           (λ report, foldl (diffPackage_service_step _)
                        (foldl (diffPackage_enum_step _) report _) _)
           (λ report, foldl (diffPackage_message_step _) report _)).
  - apply (appends_seq (λ report, foldl (diffPackage_enum_step _) report _)
                       (λ report, foldl (diffPackage_service_step _) report _));
      apply appends_foldl;
      auto with appends.
  - apply appends_foldl, appends_diffPackage_message_step.
Qed.
#[local] Hint Resolve appends_diffPackage : appends.

Lemma emitted_diffPackage previous current :
  emitted (λ report, diffPackage report previous current) =
    ((previous ≫= file_EnumType) ≫=
       (λ enum, emitted (λ report,
                           diffPackage_enum_step (enums_by_name current) report enum)))
    ++ ((previous ≫= file_Service) ≫=
          (λ srv, emitted (λ report,
                             diffPackage_service_step (services_by_name current)
                               report srv)))
    ++ ((previous ≫= file_MessageType) ≫=
          (λ msg, emitted (λ report,
                             diffPackage_message_step (messages_by_name current)
                               report msg))).
Proof.
  rewrite (emitted_ext _ _ (λ report, diffPackage_flat report previous current)).
  rewrite (emitted_seq
             (λ report, foldl (diffPackage_service_step _)
                          (foldl (diffPackage_enum_step _) report _) _)
             (λ report, foldl (diffPackage_message_step _) report _))
    by apply appends_foldl, appends_diffPackage_message_step.
  rewrite (emitted_seq (λ report, foldl (diffPackage_enum_step _) report _)
                       (λ report, foldl (diffPackage_service_step _) report _))
    by apply appends_foldl, appends_diffPackage_service_step.
  rewrite !emitted_foldl
    by auto with appends.
  by rewrite <-app_assoc.
Qed.

Lemma appends_diffFiles_step curr_by_package entry :
  appends (λ report, diffFiles_step curr_by_package report entry).
Proof.
  destruct entry as [package_name files]. simpl.
  destruct (curr_by_package !! package_name);
    [apply appends_diffPackage|apply appends_Add].
Qed.
#[local] Hint Resolve appends_diffFiles_step : appends.

Lemma Changes_diffFiles_over order current :
  Changes (fst (diffFiles_over order current)) =
    order ≫= (λ entry, emitted (λ report,
                                  diffFiles_step (groupByPackage current) report entry)).
Proof.
  unfold diffFiles_over. simpl.
  rewrite <-emitted_foldl by apply appends_diffFiles_step. reflexivity.
Qed.

Lemma groupByPackage_snoc files file :
  groupByPackage (files ++ [file]) =
    match groupByPackage files !! file_Package file with
    | Some package_files =>
        <[file_Package file := package_files ++ [file]]> (groupByPackage files)
    | None => <[file_Package file := [file]]> (groupByPackage files)
    end.
Proof. unfold groupByPackage. by rewrite foldl_app. Qed.

(** The bucket of a package is the list of its files, in snapshot order;
    packages without files have no bucket. *)
Lemma groupByPackage_lookup files package_name :
  groupByPackage files !! package_name =
    if decide (files_of package_name files = []) then None
    else Some (files_of package_name files).
Proof.
  induction files as [|file files IH] using rev_ind; [done|].
  rewrite groupByPackage_snoc. unfold files_of in *. rewrite filter_app.
  rewrite filter_cons, filter_nil.
  destruct (decide (file_Package file = package_name)) as [<-|Hne].
  - rewrite IH. destruct (decide (filter _ files = [])) as [Hnil|Hsome].
    + rewrite lookup_insert_eq, Hnil. done.
    + rewrite lookup_insert_eq. rewrite decide_False; [done|].
      by intros [? _]%app_eq_nil.
  - rewrite app_nil_r.
    destruct (groupByPackage files !! file_Package file);
      by rewrite lookup_insert_ne.
Qed.

Lemma groupByPackage_Some files package_name package_files :
  groupByPackage files !! package_name = Some package_files ↔
  package_files = files_of package_name files ∧ package_files ≠ [].
Proof.
  rewrite groupByPackage_lookup. case_decide as Hnil.
  - split; [done|]. intros [-> ?]. done.
  - split; [by intros [= <-]|]. by intros [-> _].
Qed.

(** *** Declarations that are kept produce no Change *)

Lemma emitted_diffEnum previous current :
  emitted (λ report, diffEnum report previous current) =
    (en_Value previous ≫=
       (λ value, emitted (λ report,
                            diffEnum_number_step previous
                              (values_by_number (en_Value current))
                              (values_by_name (en_Value current)) report value)))
    ++ (en_Value previous ≫=
          (λ value, emitted (λ report,
                               diffEnum_name_step previous
                                 (values_by_number (en_Value current))
                                 (values_by_name (en_Value current)) report value))).
Proof.
  unfold diffEnum.
  rewrite (emitted_seq (λ report, foldl (diffEnum_number_step _ _ _) report _)
                       (λ report, foldl (diffEnum_name_step _ _ _) report _))
    by apply appends_foldl, appends_diffEnum_name_step.
  by rewrite !emitted_foldl
    by auto with appends.
Qed.

Lemma diffEnum_silent previous current :
  en_Value previous ⊆ en_Value current →
  emitted (λ report, diffEnum report previous current) = [].
Proof.
  intros Hsub. rewrite emitted_diffEnum.
  assert (∀ value, value ∈ en_Value previous →
                   is_Some (values_by_number (en_Value current) !! ev_Number value)
                   ∧ is_Some (values_by_name (en_Value current) !! ev_Name value))
    as Hkept.
  { intros value Hin%Hsub. split.
    - apply (index_by_is_Some ev_Number). by apply list_elem_of_fmap_2.
    - apply (index_by_is_Some ev_Name). by apply list_elem_of_fmap_2. }
  rewrite !bind_all_nil; [done|..].
  - intros value [_ [next Hnext]]%Hkept.
    unfold emitted, diffEnum_name_step. by rewrite Hnext.
  - intros value [[next Hnext] _]%Hkept.
    unfold emitted, diffEnum_number_step. by rewrite Hnext.
Qed.

Lemma diffService_step_same previous current curr method :
  curr !! mt_Name method = Some method →
  emitted (λ report, diffService_step previous current curr report method) = [].
Proof.
  intros Hnext. unfold emitted, diffService_step, cmp_Equal. rewrite Hnext.
  by rewrite !bool_decide_eq_true_2 by done.
Qed.

Lemma diffService_silent previous current :
  svc_Method previous ⊆ svc_Method current →
  NoDup (mt_Name <$> svc_Method current) →
  emitted (λ report, diffService report previous current) = [].
Proof.
  intros Hsub Hnd. unfold diffService.
  rewrite emitted_foldl by apply appends_diffService_step.
  apply bind_all_nil. intros method Hin%Hsub.
  apply diffService_step_same. by apply (index_by_NoDup mt_Name).
Qed.

Lemma diffFields_step_same current curr field :
  curr !! fd_Number field = Some field →
  emitted (λ report, diffFields_step current curr report field) = [].
Proof.
  intros Hnext. unfold emitted, diffFields_step, cmp_Equal. rewrite Hnext.
  rewrite !bool_decide_eq_true_2 by done. simpl.
  by destruct (fd_TypeName field).
Qed.

Lemma diffMsg_silent previous current :
  msg_Field previous ⊆ msg_Field current →
  msg_ReservedName previous ⊆ msg_ReservedName current →
  msg_ReservedRange previous ⊆ msg_ReservedRange current →
  NoDup (fd_Number <$> msg_Field current) →
  emitted (λ report, diffMsg report previous current) = [].
Proof.
  intros Hfields Hnames Hranges Hnd. rewrite emitted_diffMsg.
  unfold diffFields, diffReservedNames.
  rewrite !emitted_foldl
    by auto with appends.
  rewrite emitted_diffReservedNumbers.
  rewrite !bind_all_nil; simpl.
  - rewrite filter_none; [done|].
    intros prev_range Hin%Hranges Hnot. apply Hnot.
    apply Exists_exists. exists prev_range. unfold range_within. split; [done|lia].
  - intros prev_name Hin%Hnames. unfold emitted, diffReservedNames_step.
    apply reserved_name_found_true in Hin. by rewrite Hin.
  - intros field Hin%Hfields. apply diffFields_step_same.
    by apply (index_by_NoDup fd_Number).
Qed.

Lemma filter_all {A} (P : A → Prop) `{∀ x, Decision (P x)} (l : list A) :
  (∀ x, x ∈ l → P x) → filter P l = l.
Proof.
  induction l as [|x l IH]; [done|]. intros Hall.
  rewrite filter_cons, decide_True by (apply Hall; left).
  f_equal. apply IH. intros y Hy. apply Hall. by right.
Qed.

Section package_keys.
Context {A : Type} (decls : FileDescriptorProto → list A) (name : A → string).

Lemma package_keys_filter files package_name :
  (package_name,.) <$> (name <$> (files_of package_name files ≫= decls)) =
    filter (λ key, key.1 = package_name) (package_keys decls name files).
Proof.
  unfold package_keys, files_of. induction files as [|file files IH]; [done|].
  rewrite bind_cons, filter_app, <-IH, filter_cons.
  destruct (decide (file_Package file = package_name)) as [<-|Hne].
  - rewrite bind_cons, !fmap_app. f_equal.
    rewrite (filter_all (λ key : string * string, key.1 = file_Package file)).
    + symmetry. apply (list_fmap_compose name (pair (file_Package file))).
    + by intros key (decl & -> & _)%list_elem_of_fmap.
  - rewrite (filter_none (λ key : string * string, key.1 = package_name)); [done|].
    by intros key (decl & -> & _)%list_elem_of_fmap.
Qed.

Lemma package_keys_NoDup files package_name :
  NoDup (package_keys decls name files) →
  NoDup (name <$> (files_of package_name files ≫= decls)).
Proof.
  intros Hnd. apply (NoDup_fmap_1 (package_name,.)).
  rewrite package_keys_filter. by apply NoDup_filter.
Qed.

(** Under unique names the index of a package finds every declaration of
    the package under its own name. *)
Lemma package_index_lookup files package_name decl :
  NoDup (package_keys decls name files) →
  decl ∈ files_of package_name files ≫= decls →
  index_by name (files_of package_name files ≫= decls) !! name decl = Some decl.
Proof. intros Hnd Hin. apply index_by_NoDup; [by apply package_keys_NoDup|done]. Qed.
End package_keys.

Lemma members_unique_message current package_name msg :
  members_unique current →
  msg ∈ files_of package_name current ≫= file_MessageType →
  NoDup (fd_Number <$> msg_Field msg).
Proof.
  intros Hu (file & Hmsg & [_ Hfile]%list_elem_of_filter)%list_elem_of_bind.
  unfold members_unique in Hu. rewrite Forall_forall in Hu.
  destruct (Hu file Hfile) as [Hmsgs _]. rewrite Forall_forall in Hmsgs. auto.
Qed.

Lemma members_unique_service current package_name srv :
  members_unique current →
  srv ∈ files_of package_name current ≫= file_Service →
  NoDup (mt_Name <$> svc_Method srv).
Proof.
  intros Hu (file & Hsrv & [_ Hfile]%list_elem_of_filter)%list_elem_of_bind.
  unfold members_unique in Hu. rewrite Forall_forall in Hu.
  destruct (Hu file Hfile) as [_ Hsrvs]. rewrite Forall_forall in Hsrvs. auto.
Qed.

Lemma diffPackage_silent current package_name files :
  keys_unique current →
  Forall (file_extends current) files →
  Forall (λ file, file_Package file = package_name) files →
  emitted (λ report, diffPackage report files (files_of package_name current)) = [].
Proof.
  intros [(Henums & Hsrvs & Hmsgs) Hmembers] Hext Hpkg.
  rewrite Forall_forall in Hext. rewrite Forall_forall in Hpkg.
  rewrite emitted_diffPackage.
  rewrite enums_by_name_index, services_by_name_index, messages_by_name_index.
  rewrite !bind_all_nil; [done|..].
  - intros msg (file & Hmsg & Hfile)%list_elem_of_bind.
    destruct (Hext file Hfile) as (_ & _ & _ & Hkept). simpl in Hkept.
    rewrite (Hpkg file Hfile), Forall_forall in Hkept.
    apply Hkept, Exists_exists in Hmsg
      as (next & Hnext & Hname & Hfields & Hnames & Hranges).
    unfold emitted at 1, diffPackage_message_step.
    rewrite Hname, (package_index_lookup file_MessageType msg_Name) by done.
    apply diffMsg_silent; eauto using members_unique_message.
  - intros srv (file & Hsrv & Hfile)%list_elem_of_bind.
    destruct (Hext file Hfile) as (_ & _ & Hkept & _). simpl in Hkept.
    rewrite (Hpkg file Hfile), Forall_forall in Hkept.
    apply Hkept, Exists_exists in Hsrv as (next & Hnext & Hname & Hmethods).
    unfold emitted at 1, diffPackage_service_step.
    rewrite Hname, (package_index_lookup file_Service svc_Name) by done.
    apply diffService_silent; eauto using members_unique_service.
  - intros enum (file & Henum & Hfile)%list_elem_of_bind.
    destruct (Hext file Hfile) as (_ & Hkept & _). simpl in Hkept.
    rewrite (Hpkg file Hfile), Forall_forall in Hkept.
    apply Hkept, Exists_exists in Henum as (next & Hnext & Hname & Hvalues).
    unfold emitted at 1, diffPackage_enum_step.
    rewrite Hname, (package_index_lookup file_EnumType en_Name) by done.
    by apply diffEnum_silent.
Qed.

Lemma range_order_entry previous order package_name files :
  range_order (groupByPackage previous) order →
  (package_name, files) ∈ order →
  files = files_of package_name previous ∧ files ≠ [].
Proof.
  unfold range_order. intros -> Hin%elem_of_map_to_list.
  by apply groupByPackage_Some.
Qed.

(** Every run of [diffFiles] on an additive extension with unique keys
    returns the empty report and no error. *)
Lemma diffFiles_over_silent previous current order :
  keys_unique current →
  extends_additively previous current →
  range_order (groupByPackage previous) order →
  diffFiles_over order current = (empty_report, None).
Proof.
  intros Hunique Hext Horder.
  assert (Changes (fst (diffFiles_over order current)) = []) as Hnil.
  { rewrite Changes_diffFiles_over. apply bind_all_nil.
    intros [package_name files] Hentry.
    destruct (range_order_entry _ _ _ _ Horder Hentry) as [-> Hne].
    assert (Forall (file_extends current) (files_of package_name previous)) as Hfiles.
    { unfold extends_additively in Hext. rewrite Forall_forall in Hext.
      apply Forall_forall. by intros file [_ ?%Hext]%list_elem_of_filter. }
    assert (Forall (λ file, file_Package file = package_name)
                   (files_of package_name previous)) as Hpkg.
    { apply Forall_forall. by intros file [? _]%list_elem_of_filter. }
    assert (groupByPackage current !! package_name
            = Some (files_of package_name current)) as Hnext.
    { apply groupByPackage_Some. split; [done|].
      destruct (files_of package_name previous) as [|file rest] eqn:Hprev; [done|].
      apply Forall_cons in Hfiles as [(Hsome & _) _].
      apply Forall_cons in Hpkg as [<- _]. done. }
    unfold emitted at 1. simpl. rewrite Hnext.
    by apply diffPackage_silent. }
  unfold diffFiles_over in *. simpl in *.
  destruct (foldl _ _ order) as [changes]. simpl in Hnil. by subst changes.
Qed.

(** *** Self-diff and additive changes *)

Lemma extends_additively_refl snapshot : extends_additively snapshot snapshot.
Proof.
  apply Forall_forall. intros file Hfile.
  assert (file ∈ files_of (file_Package file) snapshot) as Hin
    by by apply list_elem_of_filter.
  split_and!.
  - intros Hnil. simpl in Hnil. rewrite Hnil in Hin. by apply elem_of_nil in Hin.
  - apply Forall_forall. intros enum Henum. apply Exists_exists. exists enum.
    split; [apply list_elem_of_bind; eauto|]. by split.
  - apply Forall_forall. intros srv Hsrv. apply Exists_exists. exists srv.
    split; [apply list_elem_of_bind; eauto|]. by split.
  - apply Forall_forall. intros msg Hmsg. apply Exists_exists. exists msg.
    split; [apply list_elem_of_bind; eauto|]. by split_and!.
Qed.

(** Runs over a snapshot with a single package visit that package. *)
Lemma diffFiles_returns_single previous current package_name result :
  map_to_list (groupByPackage previous) = [(package_name, previous)] →
  diffFiles_returns previous current result →
  result = diffFiles_over [(package_name, previous)] current.
Proof.
  intros Hsingle (order & Horder & ->)%diffFiles_returns_inv.
  unfold range_order in Horder. rewrite Hsingle in Horder.
  apply Permutation_singleton_r in Horder. by subst order.
Qed.

(** C7 (as amended). Diffing a snapshot against an identical copy of itself
    yields an empty Report and no error, provided that within each package
    no two enums, no two services and no two messages share a name, that
    field numbers are unique within each message and method names within
    each service. *)
Theorem diffFiles_self_empty (snapshot : list FileDescriptorProto) :
  keys_unique snapshot →
  ∀ report err,
    diffFiles_returns snapshot snapshot (report, err) →
    Changes report = [] ∧ err = None.
Proof.
  intros Hunique report err (order & Horder & Heq)%diffFiles_returns_inv.
  rewrite (diffFiles_over_silent snapshot snapshot order) in Heq;
    [|done|apply extends_additively_refl|done].
  by injection Heq as -> ->.
Qed.


Ltac solve_NoDup :=
  match goal with
  | |- ?P => apply (@bool_decide_unpack P _); vm_compute; exact I
  end.

Lemma keys_unique_sample_v2 : keys_unique sample_snapshot_v2.
Proof.
  split; [split_and!; solve_NoDup|].
  unfold members_unique. repeat (apply Forall_cons; split); try (by apply Forall_nil);
    try split; repeat (apply Forall_cons; split); try (by apply Forall_nil);
    solve_NoDup.
Qed.

Lemma diffFiles_self_empty_witness :
  keys_unique sample_snapshot_v2
  ∧ diffFiles sample_snapshot_v2 sample_snapshot_v2 = (empty_report, None).
Proof.
  split; [apply keys_unique_sample_v2|].
  destruct (diffFiles sample_snapshot_v2 sample_snapshot_v2) as [report err] eqn:Hdiff.
  destruct (diffFiles_self_empty sample_snapshot_v2 keys_unique_sample_v2 report err)
    as [Hnil ->].
  - rewrite <-Hdiff. apply diffFiles_returns_diffFiles.
  - destruct report as [changes]. simpl in Hnil. by subst changes.
Defined.

(** C7 (the claim as stated fails). A snapshot in which a later file of a
    package declares an enum of the same name again, a message with two
    fields of the same number, or a service with two methods of the same
    name, differs from itself: the index built from the current side keeps
    only the last declaration under each key. *)
Lemma diffFiles_self_nonempty :
  (∀ result,
     diffFiles_returns sample_snapshot_shadowed_enum sample_snapshot_shadowed_enum
       result →
     Changes (fst result) = [ ProblemRemovedEnumValue "FOO" "bar" ])
  ∧ (∀ result,
       diffFiles_returns sample_snapshot_duplicate_number
         sample_snapshot_duplicate_number result →
       Changes (fst result) = [ ProblemChangedFieldName "HelloRequest" 1 "foo" "bar" ])
  ∧ (∀ result,
       diffFiles_returns sample_snapshot_duplicate_method
         sample_snapshot_duplicate_method result →
       Changes (fst result)
       = [ ProblemChangedServiceStreaming "Foo" "Invoke" "client" None (Some true) ]).
Proof.
  split_and!; intros result Hrun;
    apply (diffFiles_returns_single _ _ "helloworld") in Hrun as ->;
    by vm_compute.
Qed.

Lemma extends_additively_sample : extends_additively sample_snapshot_v1 sample_snapshot_v2.
Proof.
  apply Forall_cons. split; [|by apply Forall_nil].
  split_and!.
  - by vm_compute.
  - apply Forall_cons. split; [|by apply Forall_nil].
    apply Exists_cons_hd. split; [done|]. simpl. set_solver.
  - apply Forall_cons. split; [|by apply Forall_nil].
    apply Exists_cons_hd. split; [done|]. simpl. set_solver.
  - apply Forall_cons. split; [|by apply Forall_nil].
    apply Exists_cons_hd. split_and!; [done|simpl; set_solver..].
Qed.



(** *** Order of the files *)

Lemma bind_Permutation_ext {A B} (f g : A → list B) (l l' : list A) :
  l ≡ₚ l' → (∀ x, f x ≡ₚ g x) → l ≫= f ≡ₚ l' ≫= g.
Proof.
  intros Hl Hfg. rewrite Hl. clear l Hl.
  induction l' as [|x l IH]; [done|].
  rewrite !bind_cons. by rewrite IH, Hfg.
Qed.

Lemma files_of_Permutation package_name files files' :
  files ≡ₚ files' → files_of package_name files ≡ₚ files_of package_name files'.
Proof. intros Hperm. unfold files_of. by rewrite Hperm. Qed.

(** The packages a run visits are those with at least one file, each
    once, and each with its bucket. *)
Lemma range_order_packages previous order :
  range_order (groupByPackage previous) order →
  NoDup order.*1
  ∧ (∀ package_name, package_name ∈ order.*1 ↔ files_of package_name previous ≠ [])
  ∧ order = (λ package_name, (package_name, files_of package_name previous)) <$> order.*1.
Proof.
  intros Horder. split_and!.
  - unfold range_order in Horder. rewrite Horder. apply NoDup_fst_map_to_list.
  - intros package_name. rewrite list_elem_of_fmap. split.
    + intros ([p files] & -> & Hin). simpl.
      by destruct (range_order_entry _ _ _ _ Horder Hin) as [<- ?].
    + intros Hne. exists (package_name, files_of package_name previous).
      split; [done|]. unfold range_order in Horder. rewrite Horder.
      apply elem_of_map_to_list. by apply groupByPackage_Some.
  - assert (∀ entry, entry ∈ order → entry = (entry.1, files_of entry.1 previous))
      as Hentries.
    { intros [p files] Hin. simpl.
      by destruct (range_order_entry _ _ _ _ Horder Hin) as [<- ?]. }
    clear Horder. induction order as [|entry order IH]; [done|].
    rewrite !fmap_cons. f_equal.
    + apply Hentries. left.
    + apply IH. intros e He. apply Hentries. by right.
Qed.

Lemma diffPackage_Permutation files files' next next' :
  files ≡ₚ files' → next ≡ₚ next' →
  NoDup (en_Name <$> (next ≫= file_EnumType)) →
  NoDup (svc_Name <$> (next ≫= file_Service)) →
  NoDup (msg_Name <$> (next ≫= file_MessageType)) →
  emitted (λ report, diffPackage report files next)
  ≡ₚ emitted (λ report, diffPackage report files' next').
Proof.
  intros Hfiles Hnext Henums Hsrvs Hmsgs. rewrite !emitted_diffPackage.
  rewrite !enums_by_name_index, !services_by_name_index, !messages_by_name_index.
  rewrite <-(index_by_Permutation en_Name (next ≫= file_EnumType)
               (next' ≫= file_EnumType)); [|done|by rewrite Hnext].
  rewrite <-(index_by_Permutation svc_Name (next ≫= file_Service)
               (next' ≫= file_Service)); [|done|by rewrite Hnext].
  rewrite <-(index_by_Permutation msg_Name (next ≫= file_MessageType)
               (next' ≫= file_MessageType)); [|done|by rewrite Hnext].
  by rewrite Hfiles.
Qed.

Lemma diffFiles_step_Permutation previous previous' current current' package_name :
  previous ≡ₚ previous' → current ≡ₚ current' →
  toplevel_unique current →
  emitted (λ report, diffFiles_step (groupByPackage current) report
                       (package_name, files_of package_name previous))
  ≡ₚ emitted (λ report, diffFiles_step (groupByPackage current') report
                          (package_name, files_of package_name previous')).
Proof.
  intros Hprev Hcurr (Henums & Hsrvs & Hmsgs).
  pose proof (files_of_Permutation package_name _ _ Hcurr) as Hnext.
  unfold diffFiles_step. rewrite !groupByPackage_lookup.
  destruct (decide (files_of package_name current = [])) as [Hnil|Hsome].
  - rewrite Hnil in Hnext. apply Permutation_nil_l in Hnext.
    by rewrite decide_True.
  - rewrite decide_False.
    + apply diffPackage_Permutation;
        auto using files_of_Permutation, package_keys_NoDup.
    + intros Hnil. rewrite Hnil in Hnext. by apply Permutation_nil_r in Hnext.
Qed.

(** C9 (as amended). Permuting the files of either snapshot, within or
    across packages, leaves the Report the same up to the order of its
    Changes (every Change occurs the same number of times) and leaves the
    failure signal the same, provided that within each package of the
    current snapshot no two enums, no two services and no two messages
    share a name. *)
Theorem diffFiles_permutation_invariant
    (previous previous' current current' : list FileDescriptorProto) :
  previous ≡ₚ previous' →
  current ≡ₚ current' →
  toplevel_unique current →
  ∀ result result',
    diffFiles_returns previous current result →
    diffFiles_returns previous' current' result' →
    Changes (fst result) ≡ₚ Changes (fst result')
    ∧ (snd result = None ↔ snd result' = None).
Proof.
  intros Hprev Hcurr Hunique result result'
    (order & Horder & ->)%diffFiles_returns_inv
    (order' & Horder' & ->)%diffFiles_returns_inv.
  assert (Changes (fst (diffFiles_over order current))
          ≡ₚ Changes (fst (diffFiles_over order' current'))) as Hperm.
  { rewrite !Changes_diffFiles_over.
    destruct (range_order_packages _ _ Horder) as (Hnd & Hkeys & Hcanon).
    destruct (range_order_packages _ _ Horder') as (Hnd' & Hkeys' & Hcanon').
    rewrite Hcanon, Hcanon'.
    rewrite (list_fmap_bind _ _ order.*1), (list_fmap_bind _ _ order'.*1).
    apply bind_Permutation_ext.
    - apply NoDup_Permutation; [done..|]. intros package_name.
      rewrite Hkeys, Hkeys'.
      pose proof (files_of_Permutation package_name _ _ Hprev) as Hfiles.
      split; intros Hne Hnil; apply Hne; rewrite Hnil in Hfiles.
      + by apply Permutation_nil_r in Hfiles.
      + by apply Permutation_nil_l in Hfiles.
    - intros package_name. simpl. by apply diffFiles_step_Permutation. }
  split; [done|]. unfold diffFiles_over in *. simpl in *.
  rewrite !diffFiles_err_None. split; intros Hnil; rewrite Hnil in Hperm.
  - by apply Permutation_nil_l in Hperm.
  - by apply Permutation_nil_r in Hperm.
Qed.

Lemma diffFiles_permutation_invariant_witness :
  let previous := [sample_file_enum_A; sample_file_enum_B] in
  let previous' := [sample_file_enum_B; sample_file_enum_A] in
  let current := sample_snapshot_no_enums in
  let current' := reverse sample_snapshot_no_enums in
  toplevel_unique current
  ∧ Changes (fst (diffFiles previous current))
    ≡ₚ Changes (fst (diffFiles previous' current'))
  ∧ (snd (diffFiles previous current) = None
     ↔ snd (diffFiles previous' current') = None).
Proof.
  intros previous previous' current current'.
  assert (toplevel_unique current) as Hunique by (split_and!; solve_NoDup).
  split; [exact Hunique|].
  apply (diffFiles_permutation_invariant previous previous' current current').
  - apply Permutation_swap.
  - apply Permutation_swap.
  - exact Hunique.
  - apply diffFiles_returns_diffFiles.
  - apply diffFiles_returns_diffFiles.
Defined.

(** C9 (the claim as stated fails). Swapping the two files of a package in
    the previous snapshot swaps the two Changes of the Report, which is an
    ordered sequence.  Swapping two files of the current snapshot that
    declare the same enum changes which declaration the index keeps, and
    with it whether the Report is empty. *)
Lemma diffFiles_file_order_matters :
  [sample_file_enum_A; sample_file_enum_B] ≡ₚ [sample_file_enum_B; sample_file_enum_A]
  ∧ (∀ result,
       diffFiles_returns [sample_file_enum_A; sample_file_enum_B]
         sample_snapshot_no_enums result →
       Changes (fst result) = [ ProblemRemovedEnum "A"; ProblemRemovedEnum "B" ])
  ∧ (∀ result,
       diffFiles_returns [sample_file_enum_B; sample_file_enum_A]
         sample_snapshot_no_enums result →
       Changes (fst result) = [ ProblemRemovedEnum "B"; ProblemRemovedEnum "A" ])
  ∧ sample_snapshot_shadowed_enum ≡ₚ reverse sample_snapshot_shadowed_enum
  ∧ (∀ result,
       diffFiles_returns
         [sample_file "helloworld" [] [sample_enum "FOO" [sample_value "bar" 0]] []]
         sample_snapshot_shadowed_enum result →
       Changes (fst result) = [ ProblemRemovedEnumValue "FOO" "bar" ])
  ∧ (∀ result,
       diffFiles_returns
         [sample_file "helloworld" [] [sample_enum "FOO" [sample_value "bar" 0]] []]
         (reverse sample_snapshot_shadowed_enum) result →
       Changes (fst result) = []).
Proof.
  split_and!; try apply Permutation_swap; intros result Hrun;
    apply (diffFiles_returns_single _ _ "helloworld") in Hrun as ->;
    by vm_compute.
Qed.

(** ** Further properties of the engine *)

(** *** Grouping *)

(** X1. [groupByPackage] files every file under its package: the bucket of
    a package is the list of the files that declare it, in snapshot order,
    and a package that no file declares has no bucket. *)
Theorem groupByPackage_buckets (files : list FileDescriptorProto) (package_name : string) :
  groupByPackage files !! package_name =
    if decide (package_name ∈ file_Package <$> files)
    then Some (files_of package_name files)
    else None.
Proof.
  rewrite groupByPackage_lookup.
  destruct (decide (files_of package_name files = [])) as [Hnil|Hsome].
  - rewrite decide_False; [done|].
    intros (file & -> & Hin)%list_elem_of_fmap.
    eapply (filter_nil_not_elem_of _ _ file); [exact Hnil|done|done].
  - rewrite decide_True; [done|].
    destruct (files_of package_name files) as [|file rest] eqn:Hfiles; [done|].
    assert (file ∈ files_of package_name files) as [Hpkg Hin]%list_elem_of_filter
      by (rewrite Hfiles; left).
    apply list_elem_of_fmap. by exists file.
Qed.

(** *** The accumulator *)

(** X2. The differs only append: [diffPackage] leaves the Changes already in
    the report in place, as a prefix, and what it adds does not depend on
    them. *)
Theorem diffPackage_append_only
    (report : Report) (previous current : list FileDescriptorProto) :
  Changes (diffPackage report previous current) =
    Changes report ++ Changes (diffPackage empty_report previous current).
Proof. apply appends_diffPackage. Qed.

(** *** Reserved names *)

(** X3. [diffReservedNames] reports, in order, exactly the previous reserved
    names that are not among the current reserved names, each as an
    "un-reserved field name" Change that carries the current message's
    name. *)
Theorem diffReservedNames_reports_missing
    (report : Report) (previous current : DescriptorProto) :
  Changes (diffReservedNames report previous current) =
    Changes report
    ++ (ProblemUnreservedFieldName (msg_Name current)
          <$> filter (λ prev_name, prev_name ∉ msg_ReservedName current)
                     (msg_ReservedName previous)).
Proof.
  rewrite appends_diffReservedNames. f_equal. unfold diffReservedNames.
  rewrite emitted_foldl by apply appends_diffReservedNames_step.
  rewrite <-(bind_if_singleton _
               (λ n, negb (reserved_name_found (msg_ReservedName current) n))).
  - apply list_bind_ext; [|done]. intros prev_name.
    unfold diffReservedNames_step, emitted. by destruct (negb _).
  - intros prev_name. rewrite negb_true_iff, <-not_true_iff_false.
    by rewrite reserved_name_found_true.
Qed.

(** *** What each differ emits *)

Lemma Forall_emitted_foldl {A} (P : Change → Prop) (step : Report → A → Report)
    (l : list A) :
  (∀ x, appends (λ report, step report x)) →
  (∀ x, x ∈ l → Forall P (emitted (λ report, step report x))) →
  Forall P (emitted (λ report, foldl step report l)).
Proof.
  intros Happ Hstep. rewrite emitted_foldl by done.
  apply Forall_bind, Forall_forall. intros x Hx. by apply Hstep.
Qed.

Lemma diffMsg_Message previous current :
  Forall (λ ch, Change_Message ch = Some (msg_Name current))
         (emitted (λ report, diffMsg report previous current)).
Proof.
  rewrite emitted_diffMsg, !Forall_app. split_and!.
  - apply Forall_emitted_foldl; [auto with appends|]. intros field _.
    unfold emitted, diffFields_step.
    repeat case_match; simpl; repeat constructor.
  - apply Forall_emitted_foldl; [auto with appends|]. intros prev_name _.
    unfold emitted, diffReservedNames_step.
    repeat case_match; simpl; repeat constructor.
  - apply Forall_emitted_foldl; [auto with appends|]. intros prev_range _.
    unfold emitted, diffReservedNumbers_step.
    repeat case_match; simpl; repeat constructor.
Qed.

(** X4. [diffMsg] runs the field check, the reserved-name check and the
    reserved-range check in this order on one report, and every Change it
    adds is a field-level or reservation Change that carries the current
    message's name. *)
Theorem diffMsg_changes (previous current : DescriptorProto) :
  emitted (λ report, diffMsg report previous current) =
    emitted (λ report, diffFields report previous current)
    ++ emitted (λ report, diffReservedNames report previous current)
    ++ emitted (λ report, diffReservedNumbers report previous current)
  ∧ Forall (λ ch, Change_Message ch = Some (msg_Name current))
           (emitted (λ report, diffMsg report previous current)).
Proof. split; [apply emitted_diffMsg|apply diffMsg_Message]. Qed.

Lemma diffEnum_Enum previous current :
  Forall (λ ch, Change_Enum ch = Some (en_Name previous))
         (emitted (λ report, diffEnum report previous current)).
Proof.
  rewrite emitted_diffEnum, Forall_app. split.
  - apply Forall_bind, Forall_forall. intros value _.
    unfold emitted, diffEnum_number_step. simpl.
    repeat case_match; simpl; repeat constructor.
  - apply Forall_bind, Forall_forall. intros value _.
    unfold emitted, diffEnum_name_step. simpl.
    repeat case_match; simpl; repeat constructor.
Qed.

Lemma length_two_binds {A B} (f g : A → list B) (l : list A) :
  (∀ x, (length (f x) + length (g x) ≤ 1)%nat) →
  (length ((l ≫= f) ++ (l ≫= g)) ≤ length l)%nat.
Proof.
  intros Hfg. rewrite length_app. induction l as [|x l IH]; [done|].
  rewrite !bind_cons, !length_app. simpl. specialize (Hfg x). lia.
Qed.

(** X5. Although [diffEnum] visits the previous values in two loops, it
    reports each previous value at most once: the number of Changes it adds
    never exceeds the number of previous values, and each of them is an
    enum-value Change that carries the previous enum's name. *)
Theorem diffEnum_at_most_one_per_value (previous current : EnumDescriptorProto) :
  (length (emitted (λ report, diffEnum report previous current))
   ≤ length (en_Value previous))%nat
  ∧ Forall (λ ch, Change_Enum ch = Some (en_Name previous))
           (emitted (λ report, diffEnum report previous current)).
Proof.
  split; [|apply diffEnum_Enum].
  rewrite emitted_diffEnum. apply length_two_binds. intros value.
  unfold emitted, diffEnum_number_step, diffEnum_name_step. simpl.
  destruct (values_by_number _ !! _), (values_by_name _ !! _); simpl; lia.
Qed.

Lemma bind_singleton_fmap {A B} (g : A → B) (l : list A) :
  l ≫= (λ x, [g x]) = g <$> l.
Proof. induction l as [|x l IH]; [done|]. by rewrite bind_cons, fmap_cons, IH. Qed.

(** X6. Against a current enum without values, [diffEnum] reports every
    previous value as removed, once and in declaration order, and nothing
    else. *)
Theorem diffEnum_current_without_values
    (previous : EnumDescriptorProto) (current_name : string) :
  emitted (λ report, diffEnum report previous
                       {| en_Name := current_name; en_Value := [] |})
  = ProblemRemovedEnumValue (en_Name previous) <$> (ev_Name <$> en_Value previous).
Proof.
  rewrite emitted_diffEnum. simpl.
  rewrite (bind_all_nil (λ value, emitted (λ report, diffEnum_name_step _ _ _ _ value))).
  - rewrite app_nil_r, <-list_fmap_compose, <-bind_singleton_fmap.
    apply list_bind_ext; [|done]. intros value.
    unfold emitted, diffEnum_number_step, values_by_number, values_by_name. simpl.
    by rewrite !lookup_empty.
  - intros value _.
    unfold emitted, diffEnum_name_step, values_by_number, values_by_name. simpl.
    by rewrite !lookup_empty.
Qed.

(** *** Service methods *)

Ltac matched_method_cases Hnext :=
  unfold emitted, diffService_step; rewrite Hnext; unfold cmp_Equal; simpl;
  repeat case_bool_decide; simpl.

(** X7. For a previous method matched by name to a current method,
    [diffService] compares the input type, the output type, the
    client-streaming flag and the server-streaming flag independently:
    each comparison emits its own Change exactly when the two values differ
    (the flags as pointers to booleans: unset, [false] and [true] are three
    different values), so one method yields up to four Changes, in this
    order. *)
Theorem diffService_step_matched_checks
    (previous current : ServiceDescriptorProto)
    (curr : gmap string MethodDescriptorProto) (prev next : MethodDescriptorProto) :
  curr !! mt_Name prev = Some next →
  let out := emitted (λ report, diffService_step previous current curr report prev) in
  (ProblemChangedService (svc_Name current) (mt_Name prev) "input"
       (mt_InputType prev) (mt_InputType next) ∈ out
     ↔ mt_InputType prev ≠ mt_InputType next)
  ∧ (ProblemChangedService (svc_Name current) (mt_Name prev) "output"
         (mt_OutputType prev) (mt_OutputType next) ∈ out
     ↔ mt_OutputType prev ≠ mt_OutputType next)
  ∧ (ProblemChangedServiceStreaming (svc_Name current) (mt_Name prev) "client"
         (mt_ClientStreaming prev) (mt_ClientStreaming next) ∈ out
     ↔ mt_ClientStreaming prev ≠ mt_ClientStreaming next)
  ∧ (ProblemChangedServiceStreaming (svc_Name current) (mt_Name prev) "server"
         (mt_ServerStreaming prev) (mt_ServerStreaming next) ∈ out
     ↔ mt_ServerStreaming prev ≠ mt_ServerStreaming next)
  ∧ (length out ≤ 4)%nat
  ∧ (mt_InputType prev ≠ mt_InputType next →
     mt_OutputType prev ≠ mt_OutputType next →
     mt_ClientStreaming prev ≠ mt_ClientStreaming next →
     mt_ServerStreaming prev ≠ mt_ServerStreaming next →
     out = [ ProblemChangedService (svc_Name current) (mt_Name prev) "input"
               (mt_InputType prev) (mt_InputType next);
             ProblemChangedService (svc_Name current) (mt_Name prev) "output"
               (mt_OutputType prev) (mt_OutputType next);
             ProblemChangedServiceStreaming (svc_Name current) (mt_Name prev) "client"
               (mt_ClientStreaming prev) (mt_ClientStreaming next);
             ProblemChangedServiceStreaming (svc_Name current) (mt_Name prev) "server"
               (mt_ServerStreaming prev) (mt_ServerStreaming next) ]).
Proof.
  intros Hnext out. subst out. split_and!.
  - matched_method_cases Hnext; rewrite ?elem_of_cons, ?elem_of_nil; naive_solver.
  - matched_method_cases Hnext; rewrite ?elem_of_cons, ?elem_of_nil; naive_solver.
  - matched_method_cases Hnext; rewrite ?elem_of_cons, ?elem_of_nil; naive_solver.
  - matched_method_cases Hnext; rewrite ?elem_of_cons, ?elem_of_nil; naive_solver.
  - matched_method_cases Hnext; lia.
  - intros Hin Hout Hclient Hserver. matched_method_cases Hnext; done.
Qed.

Lemma diffService_step_matched_checks_witness :
  let previous := sample_service (sample_method None None) in
  let current := sample_service sample_method_changed in
  methods_by_name (svc_Method current) !! "Invoke" = Some sample_method_changed
  ∧ emitted (λ report, diffService report previous current)
    = [ ProblemChangedService "Foo" "Invoke" "input"
          ".helloworld.FooRequest" ".helloworld.BarRequest";
        ProblemChangedService "Foo" "Invoke" "output"
          ".helloworld.FooResponse" ".helloworld.BarResponse";
        ProblemChangedServiceStreaming "Foo" "Invoke" "client" None (Some true);
        ProblemChangedServiceStreaming "Foo" "Invoke" "server" None (Some true) ].
Proof.
  intros previous current.
  assert (methods_by_name (svc_Method current) !! mt_Name (sample_method None None)
          = Some sample_method_changed) as Hnext by reflexivity.
  split; [exact Hnext|].
  pose proof (diffService_step_matched_checks previous current
                (methods_by_name (svc_Method current))
                (sample_method None None) sample_method_changed Hnext) as Hchecks.
  simpl in Hchecks. destruct Hchecks as (_ & _ & _ & _ & _ & Hall).
  unfold diffService. rewrite emitted_foldl by apply appends_diffService_step.
  simpl. rewrite app_nil_r. apply Hall; discriminate.
Defined.

Lemma diffService_Service previous current :
  Forall (λ ch, Change_Service ch = Some (svc_Name previous)
                ∨ Change_Service ch = Some (svc_Name current))
         (emitted (λ report, diffService report previous current)).
Proof.
  apply Forall_emitted_foldl; [auto with appends|]. intros prev _.
  unfold emitted, diffService_step.
  repeat case_match; simpl;
    repeat first [apply Forall_nil_2|apply Forall_cons_2]; auto.
Qed.

(** X8. [diffService] reports a method as removed exactly when its name is
    the name of a previous method and of no current method; the Change
    carries the previous service's name. *)
Theorem diffService_removed_methods
    (previous current : ServiceDescriptorProto) (service name : string) :
  ProblemRemovedServiceMethod service name
    ∈ emitted (λ report, diffService report previous current)
  ↔ service = svc_Name previous
    ∧ name ∈ mt_Name <$> svc_Method previous
    ∧ name ∉ mt_Name <$> svc_Method current.
Proof.
  unfold diffService. rewrite emitted_foldl by apply appends_diffService_step.
  rewrite list_elem_of_bind. split.
  - intros (prev & Hin & Hprev). revert Hin.
    unfold emitted, diffService_step.
    destruct (methods_by_name _ !! mt_Name prev) as [next|] eqn:Hnext.
    + unfold cmp_Equal. repeat case_bool_decide; simpl;
        rewrite ?elem_of_cons, ?elem_of_nil; naive_solver.
    + simpl. rewrite list_elem_of_singleton. intros [= -> ->].
      split_and!; [done|by apply list_elem_of_fmap_2|].
      by apply (index_by_None mt_Name).
  - intros (-> & (prev & -> & Hprev)%list_elem_of_fmap & Hgone).
    exists prev. split; [|done].
    apply (index_by_None mt_Name) in Hgone.
    unfold emitted, diffService_step, methods_by_name.
    fold (index_by mt_Name (svc_Method current)). rewrite Hgone. simpl. left.
Qed.

(** *** Removed fields *)

(** X9. [diffFields] matches fields by number only.  A "removed field"
    Change always names the current message and a previous field whose
    number no current field has; and such a field is reported whenever its
    name is not among the current reserved names, or its number lies below
    [Start] or above [End] of every current reserved range. *)
Theorem diffFields_removed_fields (previous current : DescriptorProto) :
  (∀ message name,
     ProblemRemovedField message name
       ∈ emitted (λ report, diffFields report previous current) →
     message = msg_Name current
     ∧ ∃ field, field ∈ msg_Field previous ∧ fd_Name field = name
                ∧ fd_Number field ∉ fd_Number <$> msg_Field current)
  ∧ (∀ field,
       field ∈ msg_Field previous →
       fd_Number field ∉ fd_Number <$> msg_Field current →
       (fd_Name field ∉ msg_ReservedName current
        ∨ ∀ rrange, rrange ∈ msg_ReservedRange current →
                    fd_Number field < rr_Start rrange
                    ∨ rr_End rrange < fd_Number field) →
       ProblemRemovedField (msg_Name current) (fd_Name field)
         ∈ emitted (λ report, diffFields report previous current)).
Proof.
  unfold diffFields. rewrite emitted_foldl by apply appends_diffFields_step.
  split.
  - intros message name (field & Hin & Hfield)%list_elem_of_bind. revert Hin.
    destruct (fields_by_number (msg_Field current) !! fd_Number field)
      as [next|] eqn:Hnext.
    + matched_field_cases Hnext; rewrite ?elem_of_cons, ?elem_of_nil; naive_solver.
    + unfold emitted, diffFields_step. rewrite Hnext.
      destruct (hasReserved current field); simpl; [by intros ?%elem_of_nil|].
      rewrite list_elem_of_singleton. intros [= -> ->]. split; [done|].
      exists field. split_and!; [done..|]. by apply (index_by_None fd_Number).
  - intros field Hfield Hgone Hfree. apply list_elem_of_bind. exists field.
    split; [|done]. apply (index_by_None fd_Number) in Hgone.
    unfold emitted, diffFields_step, fields_by_number.
    fold (index_by fd_Number (msg_Field current)). rewrite Hgone.
    destruct (hasReserved current field) eqn:Hres; simpl; [|left].
    apply hasReserved_true in Hres as (Hname & rrange & Hin & Hrange).
    destruct Hfree as [Hfree|Hfree]; [done|]. specialize (Hfree rrange Hin). lia.
Qed.

Lemma diffFields_removed_fields_witness :
  let previous := sample_msg_with_field5 in
  let current :=
    {| msg_Name := "HelloRequest"; msg_Field := [sample_field "age" 6];
       msg_ReservedRange := [ {| rr_Start := 5; rr_End := 6 |} ];
       msg_ReservedName := ["other"] |} in
  ProblemRemovedField "HelloRequest" "name"
    ∈ emitted (λ report, diffFields report previous current).
Proof.
  intros previous current.
  destruct (diffFields_removed_fields previous current) as [_ Hreported].
  apply (Hreported (sample_field "name" 5)).
  - simpl. left.
  - simpl. rewrite list_elem_of_singleton. discriminate.
  - left. simpl. rewrite list_elem_of_singleton. discriminate.
Defined.

(** *** Declarations of a package *)

Lemma index_by_last_with {K A} `{Countable K} (key : A → K) (l : list A) (k : K) :
  index_by key l !! k = last_with key k l.
Proof.
  unfold last_with. induction l as [|x l IH] using rev_ind; [done|].
  rewrite index_by_snoc, filter_app, filter_cons, filter_nil.
  destruct (decide (key x = k)) as [<-|Hne].
  - by rewrite lookup_insert_eq, last_snoc.
  - by rewrite lookup_insert_ne, app_nil_r.
Qed.

(** X10. [diffPackage] reports on the enums first, then the services, then
    the messages of the previous files, each kind in declaration order.  A
    previous declaration is compared with the last current declaration of
    the same name, in the order of the current files (a later declaration
    shadows an earlier one); when there is none, the declaration yields
    exactly one "removed" Change and its members are not looked at. *)
Theorem diffPackage_by_declaration (previous current : list FileDescriptorProto) :
  emitted (λ report, diffPackage report previous current) =
    ((previous ≫= file_EnumType) ≫=
       (λ enum,
          match last_with en_Name (en_Name enum) (current ≫= file_EnumType) with
          | Some next => emitted (λ report, diffEnum report enum next)
          | None => [ ProblemRemovedEnum (en_Name enum) ]
          end))
    ++ ((previous ≫= file_Service) ≫=
          (λ srv,
             match last_with svc_Name (svc_Name srv) (current ≫= file_Service) with
             | Some next => emitted (λ report, diffService report srv next)
             | None => [ ProblemRemovedService (svc_Name srv) ]
             end))
    ++ ((previous ≫= file_MessageType) ≫=
          (λ msg,
             match last_with msg_Name (msg_Name msg)
                     (current ≫= file_MessageType) with
             | Some next => emitted (λ report, diffMsg report msg next)
             | None => [ ProblemRemovedMessage (msg_Name msg) ]
             end)).
Proof.
  rewrite emitted_diffPackage.
  rewrite enums_by_name_index, services_by_name_index, messages_by_name_index.
  f_equal; [|f_equal]; apply list_bind_ext; try done.
  - intros enum. unfold emitted at 1, diffPackage_enum_step.
    rewrite index_by_last_with. by destruct (last_with _ _ _).
  - intros srv. unfold emitted at 1, diffPackage_service_step.
    rewrite index_by_last_with. by destruct (last_with _ _ _).
  - intros msg. unfold emitted at 1, diffPackage_message_step.
    rewrite index_by_last_with. by destruct (last_with _ _ _).
Qed.

(** *** Packages of a snapshot *)

Lemma files_of_nil_iff package_name files :
  files_of package_name files = [] ↔ package_name ∉ file_Package <$> files.
Proof.
  split.
  - intros Hnil (file & -> & Hin)%list_elem_of_fmap.
    eapply (filter_nil_not_elem_of _ _ file); [exact Hnil|done|done].
  - intros Hnot. apply filter_none. intros file Hin <-.
    apply Hnot. by apply list_elem_of_fmap_2.
Qed.

Lemma diffFiles_step_package_Changes previous current package_name :
  emitted (λ report, diffFiles_step (groupByPackage current) report
                       (package_name, files_of package_name previous))
  = package_Changes previous current package_name.
Proof.
  unfold package_Changes, emitted at 1. simpl. rewrite groupByPackage_lookup.
  by destruct (decide (files_of package_name current = [])).
Qed.

(** Every run visits the packages of the previous snapshot, each once, and
    its report is the concatenation of their contributions. *)
Lemma diffFiles_over_by_package previous current order :
  range_order (groupByPackage previous) order →
  NoDup order.*1
  ∧ (∀ package_name, package_name ∈ order.*1 ↔ package_name ∈ file_Package <$> previous)
  ∧ Changes (fst (diffFiles_over order current))
    = order.*1 ≫= package_Changes previous current.
Proof.
  intros Horder.
  destruct (range_order_packages _ _ Horder) as (Hnd & Hkeys & Hcanon).
  split_and!; [done| |].
  - intros package_name. rewrite Hkeys, files_of_nil_iff.
    split; [|by auto]. intros Hnn.
    by destruct (decide (package_name ∈ file_Package <$> previous)).
  - rewrite Changes_diffFiles_over. rewrite Hcanon at 1.
    rewrite (list_fmap_bind _ _ order.*1).
    apply list_bind_ext; [|done]. intros package_name. simpl.
    apply diffFiles_step_package_Changes.
Qed.

(** X11. Every run of [diffFiles] reports package by package: the Report
    is the concatenation, over the distinct packages of the previous
    snapshot in the order the run visits them, of a single "removed
    package" Change when no current file declares the package, and
    otherwise of what [diffPackage] reports for the previous and the
    current files of that package. *)
Theorem diffFiles_by_package (previous current : list FileDescriptorProto) :
  ∀ report err,
    diffFiles_returns previous current (report, err) →
    ∃ packages,
      NoDup packages
      ∧ (∀ package_name,
           package_name ∈ packages ↔ package_name ∈ file_Package <$> previous)
      ∧ Changes report = packages ≫= package_Changes previous current.
Proof.
  intros report err (order & Horder & Heq)%diffFiles_returns_inv.
  exists order.*1.
  destruct (diffFiles_over_by_package previous current order Horder)
    as (Hnd & Hkeys & Hchanges).
  rewrite <-Heq in Hchanges. done.
Qed.

Lemma diffFiles_by_package_witness :
  let previous :=
    [ sample_file "helloworld" [] [sample_enum_before] [];
      sample_file "foo" [] [] [] ] in
  let current := [ sample_file "helloworld" [] [sample_enum_after] [] ] in
  ∃ packages,
    packages ≡ₚ ["helloworld"; "foo"]
    ∧ Changes (fst (diffFiles previous current))
      = packages ≫= package_Changes previous current.
Proof.
  intros previous current.
  destruct (diffFiles_by_package previous current
              (fst (diffFiles previous current)) (snd (diffFiles previous current)))
    as (packages & Hnd & Hkeys & Hchanges).
  - rewrite <-surjective_pairing. apply diffFiles_returns_diffFiles.
  - exists packages. split; [|exact Hchanges].
    apply NoDup_Permutation; [done|solve_NoDup|].
    intros package_name. rewrite Hkeys. simpl. set_solver.
Defined.

Lemma diffPackage_no_package_Change previous current package_name :
  ProblemRemovedPackage package_name
    ∉ emitted (λ report, diffPackage report previous current).
Proof.
  rewrite emitted_diffPackage, !elem_of_app, !list_elem_of_bind.
  intros [(enum & Hin & _)|[(srv & Hin & _)|(msg & Hin & _)]]; revert Hin.
  - unfold emitted at 1, diffPackage_enum_step.
    destruct (enums_by_name current !! en_Name enum) as [next|].
    + intros Hin. pose proof (diffEnum_Enum enum next) as Hall.
      rewrite Forall_forall in Hall. by apply Hall in Hin.
    + simpl. by rewrite list_elem_of_singleton.
  - unfold emitted at 1, diffPackage_service_step.
    destruct (services_by_name current !! svc_Name srv) as [next|].
    + intros Hin. pose proof (diffService_Service srv next) as Hall.
      rewrite Forall_forall in Hall. by apply Hall in Hin as [?|?].
    + simpl. by rewrite list_elem_of_singleton.
  - unfold emitted at 1, diffPackage_message_step.
    destruct (messages_by_name current !! msg_Name msg) as [next|].
    + intros Hin. pose proof (diffMsg_Message msg next) as Hall.
      rewrite Forall_forall in Hall. by apply Hall in Hin.
    + simpl. by rewrite list_elem_of_singleton.
Qed.

(** X12. In every run of [diffFiles], a package is reported as removed
    exactly when some previous file declares it and no current file does. *)
Theorem diffFiles_removed_packages
    (previous current : list FileDescriptorProto) (package_name : string) :
  ∀ report err,
    diffFiles_returns previous current (report, err) →
    ProblemRemovedPackage package_name ∈ Changes report
    ↔ package_name ∈ file_Package <$> previous
      ∧ package_name ∉ file_Package <$> current.
Proof.
  intros report err (order & Horder & Heq)%diffFiles_returns_inv.
  destruct (diffFiles_over_by_package previous current order Horder)
    as (_ & Hkeys & Hchanges).
  rewrite <-Heq in Hchanges. simpl in Hchanges.
  rewrite Hchanges, list_elem_of_bind. setoid_rewrite Hkeys.
  unfold package_Changes. split.
  - intros (p & Hin & Hp). revert Hin.
    destruct (decide (files_of p current = [])) as [Hnil|Hsome].
    + rewrite list_elem_of_singleton. intros [= ->].
      split; [done|]. by apply files_of_nil_iff.
    + by intros ?%diffPackage_no_package_Change.
  - intros [Hprev Hcurr]. exists package_name. split; [|done].
    apply files_of_nil_iff in Hcurr. rewrite decide_True by done. left.
Qed.

Lemma diffFiles_removed_packages_witness :
  let previous :=
    [ sample_file "helloworld" [] [sample_enum_before] [];
      sample_file "foo" [] [] [] ] in
  let current := [ sample_file "helloworld" [] [sample_enum_after] [] ] in
  ProblemRemovedPackage "foo" ∈ Changes (fst (diffFiles previous current))
  ∧ ProblemRemovedPackage "helloworld" ∉ Changes (fst (diffFiles previous current)).
Proof.
  intros previous current.
  assert (diffFiles_returns previous current
            (fst (diffFiles previous current), snd (diffFiles previous current)))
    as Hrun by (rewrite <-surjective_pairing; apply diffFiles_returns_diffFiles).
  split.
  - apply (diffFiles_removed_packages previous current "foo" _ _ Hrun).
    simpl. set_solver.
  - intros Hin.
    apply (diffFiles_removed_packages previous current "helloworld" _ _ Hrun) in Hin
      as [_ Hgone].
    apply Hgone. simpl. set_solver.
Defined.

Lemma diffFiles_over_eq order current current' :
  Changes (fst (diffFiles_over order current))
    = Changes (fst (diffFiles_over order current')) →
  diffFiles_over order current = diffFiles_over order current'.
Proof.
  unfold diffFiles_over. simpl.
  destruct (foldl _ _ order) as [changes], (foldl _ _ order) as [changes'].
  simpl. by intros ->.
Qed.

(** X13. When no package of the previous snapshot is declared by a current
    file (in particular when the current snapshot is empty), every run of
    [diffFiles] reports each distinct previous package once as removed and
    nothing else, and fails unless the previous snapshot is empty. *)
Theorem diffFiles_no_common_package (previous current : list FileDescriptorProto) :
  (∀ package_name,
     package_name ∈ file_Package <$> previous →
     package_name ∉ file_Package <$> current) →
  ∀ report err,
    diffFiles_returns previous current (report, err) →
    Changes report ≡ₚ ProblemRemovedPackage <$> remove_dups (file_Package <$> previous)
    ∧ (err = None ↔ previous = []).
Proof.
  intros Hdisjoint report err (order & Horder & Heq)%diffFiles_returns_inv.
  destruct (diffFiles_over_by_package previous current order Horder)
    as (Hnd & Hkeys & Hchanges).
  assert (Changes report
          ≡ₚ ProblemRemovedPackage <$> remove_dups (file_Package <$> previous))
    as Hperm.
  { rewrite <-Heq in Hchanges. simpl in Hchanges. rewrite Hchanges.
    rewrite (Forall_bind_ext _ (λ p, [ProblemRemovedPackage p])).
    - rewrite bind_singleton_fmap. apply fmap_Permutation.
      apply NoDup_Permutation; [done|apply NoDup_remove_dups|].
      intros p. by rewrite Hkeys, elem_of_remove_dups.
    - apply Forall_forall. intros p Hp%Hkeys%Hdisjoint%files_of_nil_iff.
      unfold package_Changes. by rewrite decide_True. }
  split; [done|].
  unfold diffFiles_over in Heq. injection Heq as Hreport Herr.
  rewrite <-Hreport in Herr. rewrite Herr, diffFiles_err_None.
  split.
  - intros Hnil. rewrite Hnil in Hperm. symmetry in Hperm.
    apply Permutation_nil_r, fmap_nil_inv in Hperm.
    destruct previous as [|file rest]; [done|].
    assert (file_Package file ∈ remove_dups (file_Package <$> file :: rest)) as Hin
      by (apply elem_of_remove_dups; left).
    rewrite Hperm in Hin. by apply elem_of_nil in Hin.
  - intros ->. simpl in Hperm. by apply Permutation_nil_r in Hperm.
Qed.

Lemma diffFiles_no_common_package_witness :
  let previous :=
    [ sample_file "helloworld" [] [sample_enum_before] [];
      sample_file "foo" [] [] [];
      sample_file "helloworld" [sample_msg_with_field5] [] [] ] in
  Changes (fst (diffFiles previous []))
    ≡ₚ [ ProblemRemovedPackage "foo"; ProblemRemovedPackage "helloworld" ]
  ∧ snd (diffFiles previous []) ≠ None.
Proof.
  intros previous.
  destruct (diffFiles_no_common_package previous []
              ltac:(intros p _; simpl; apply not_elem_of_nil)
              (fst (diffFiles previous [])) (snd (diffFiles previous [])))
    as [Hperm Herr].
  - rewrite <-surjective_pairing. apply diffFiles_returns_diffFiles.
  - split; [exact Hperm|]. intros Hnone. by apply Herr in Hnone.
Defined.

(** X14. The diff looks at the current snapshot only through the files of
    the packages that the previous snapshot declares: two current
    snapshots with the same files for each of these packages, in the same
    order, give the same results, whatever else they contain. *)
Theorem diffFiles_ignores_other_packages
    (previous current current' : list FileDescriptorProto) :
  (∀ package_name,
     package_name ∈ file_Package <$> previous →
     files_of package_name current' = files_of package_name current) →
  ∀ result,
    diffFiles_returns previous current result
    ↔ diffFiles_returns previous current' result.
Proof.
  intros Hsame result.
  assert (∀ order, range_order (groupByPackage previous) order →
                   diffFiles_over order current = diffFiles_over order current')
    as Hover.
  { intros order Horder. apply diffFiles_over_eq.
    destruct (diffFiles_over_by_package previous current order Horder)
      as (_ & Hkeys & ->).
    destruct (diffFiles_over_by_package previous current' order Horder)
      as (_ & _ & ->).
    apply Forall_bind_ext, Forall_forall. intros p Hp%Hkeys%Hsame.
    unfold package_Changes. by rewrite Hp. }
  split; intros (order & Horder & ->)%diffFiles_returns_inv.
  - rewrite Hover by done. by apply diffFiles_run.
  - rewrite <-Hover by done. by apply diffFiles_run.
Qed.

Lemma diffFiles_ignores_other_packages_witness :
  let previous := [ sample_file "helloworld" [] [sample_enum_before] [] ] in
  let current := [ sample_file "helloworld" [] [sample_enum_after] [] ] in
  let current' :=
    sample_file "other" [sample_msg "HelloRequest" []] [sample_enum "FOO" []] []
      :: current ++ [ sample_file "foo" [] [sample_enum "FOO" []] [] ] in
  diffFiles_returns previous current' (diffFiles previous current).
Proof.
  intros previous current current'.
  apply (diffFiles_ignores_other_packages previous current current').
  - intros p Hp. simpl in Hp. apply list_elem_of_singleton in Hp as ->. reflexivity.
  - apply diffFiles_returns_diffFiles.
Defined.

(** X15. [groupByPackage] neither loses nor duplicates a file: the buckets
    of the map, taken together, hold exactly the files of the snapshot. *)
Theorem groupByPackage_partition (files : list FileDescriptorProto) :
  map_to_list (groupByPackage files) ≫= snd ≡ₚ files.
Proof.
  induction files as [|file files IH] using rev_ind.
  - unfold groupByPackage. simpl. by rewrite map_to_list_empty.
  - rewrite groupByPackage_snoc.
    destruct (groupByPackage files !! file_Package file) as [package_files|] eqn:Hlook.
    + rewrite <-insert_delete_eq, map_to_list_insert by apply lookup_delete_eq.
      rewrite <-(map_to_list_delete _ _ _ Hlook) in IH.
      rewrite bind_cons in *. simpl in *.
      set (rest := map_to_list (delete _ _) ≫= snd) in *.
      transitivity ((package_files ++ rest) ++ [file]).
      * rewrite <-!app_assoc. apply Permutation_app_head, Permutation_app_comm.
      * by apply Permutation_app_tail.
    + rewrite map_to_list_insert by done.
      rewrite bind_cons. simpl.
      transitivity (file :: files); [by constructor|apply Permutation_cons_append].
Qed.
